(** * VevaciousPlusPlus: tunneling engine, node ordering and minimum search

    A shallow embedding of
    - [BounceActionTunneler.cpp] (tunneling orchestration, conversion of a
      bounce action into a survival probability, temperature bracketing),
    - [NodesOnBisectingPlanes.cpp] (node ordering by bisection and the
      per-node rotation matrix),
    - [GradientFromStartingPoints.cpp] (the retry loop of [FindMinima]),
    together with the properties of these functions.

    Number models.  A C++ [double] is a binary64 primitive float
    ([PrimFloat.float]), with its rounding, infinities and NaN; [size_t] is
    [N] reduced modulo [2^64]; [unsigned int] is [N] reduced modulo [2^32].
    Real numbers ([R]) appear only to say what a [double] is worth, where a
    width is compared with a root of two. *)

From Stdlib Require Import ZArith NArith List Lia Bool Floats String.
From Stdlib Require Reals Lra.
From stdpp Require Import base list.
Import ListNotations.

Set Warnings "-inexact-float".

(* ===================================================================== *)
(** * Comparisons of [double] *)
(* ===================================================================== *)

Module Double.

Open Scope float_scope.

(** C++ [a >= b] and [a > b] on doubles; like [<=] and [<], they are false
    as soon as an operand is a NaN. *)
Definition geb (a b : float) : bool := b <=? a.
Definition gtb (a b : float) : bool := b <? a.

(** [std::isnan]. *)
Definition isnan (a : float) : bool := is_nan a.

End Double.

(* ===================================================================== *)
(** * BounceActionTunneler.cpp *)
(* ===================================================================== *)

Module BounceActionTunneler.

Import Double.
Open Scope float_scope.

(** [TunnelingCalculator::TunnelingStrategy].  The enumeration is declared in
    a header that is not part of the sources; the five values are the ones
    [CalculateTunneling] tests for, [NotSet] stands for any other value (the
    final [else] of [CalculateTunneling]). *)
Inductive TunnelingStrategy :=
| NoTunneling | JustQuantum | JustThermal
| QuantumThenThermal | ThermalThenQuantum | NotSet.

(** [PotentialMinimum]: a field configuration with the value of the potential
    there and its error estimate. *)
Record PotentialMinimum := {
  FieldConfiguration : list float;
  FunctionValue : float;
  FunctionError : float
}.

(** The data members that the calculation writes. *)
Record Tunneler := {
  quantumSurvivalProbability : float;
  quantumLifetimeInSeconds : float;
  thermalSurvivalProbability : float;
  partialThermalDecayWidth : float;
  dominantTemperatureInGigaElectronVolts : float;
  logOfMinusLogOfQuantumProbability : float;
  logOfMinusLogOfThermalProbability : float
}.

Definition set_quantumSurvivalProbability v t :=
  {| quantumSurvivalProbability := v;
     quantumLifetimeInSeconds := quantumLifetimeInSeconds t;
     thermalSurvivalProbability := thermalSurvivalProbability t;
     partialThermalDecayWidth := partialThermalDecayWidth t;
     dominantTemperatureInGigaElectronVolts :=
       dominantTemperatureInGigaElectronVolts t;
     logOfMinusLogOfQuantumProbability := logOfMinusLogOfQuantumProbability t;
     logOfMinusLogOfThermalProbability := logOfMinusLogOfThermalProbability t |}.

Definition set_quantumLifetimeInSeconds v t :=
  {| quantumSurvivalProbability := quantumSurvivalProbability t;
     quantumLifetimeInSeconds := v;
     thermalSurvivalProbability := thermalSurvivalProbability t;
     partialThermalDecayWidth := partialThermalDecayWidth t;
     dominantTemperatureInGigaElectronVolts :=
       dominantTemperatureInGigaElectronVolts t;
     logOfMinusLogOfQuantumProbability := logOfMinusLogOfQuantumProbability t;
     logOfMinusLogOfThermalProbability := logOfMinusLogOfThermalProbability t |}.

Definition set_thermalSurvivalProbability v t :=
  {| quantumSurvivalProbability := quantumSurvivalProbability t;
     quantumLifetimeInSeconds := quantumLifetimeInSeconds t;
     thermalSurvivalProbability := v;
     partialThermalDecayWidth := partialThermalDecayWidth t;
     dominantTemperatureInGigaElectronVolts :=
       dominantTemperatureInGigaElectronVolts t;
     logOfMinusLogOfQuantumProbability := logOfMinusLogOfQuantumProbability t;
     logOfMinusLogOfThermalProbability := logOfMinusLogOfThermalProbability t |}.

Definition set_partialThermalDecayWidth v t :=
  {| quantumSurvivalProbability := quantumSurvivalProbability t;
     quantumLifetimeInSeconds := quantumLifetimeInSeconds t;
     thermalSurvivalProbability := thermalSurvivalProbability t;
     partialThermalDecayWidth := v;
     dominantTemperatureInGigaElectronVolts :=
       dominantTemperatureInGigaElectronVolts t;
     logOfMinusLogOfQuantumProbability := logOfMinusLogOfQuantumProbability t;
     logOfMinusLogOfThermalProbability := logOfMinusLogOfThermalProbability t |}.

Definition set_dominantTemperatureInGigaElectronVolts v t :=
  {| quantumSurvivalProbability := quantumSurvivalProbability t;
     quantumLifetimeInSeconds := quantumLifetimeInSeconds t;
     thermalSurvivalProbability := thermalSurvivalProbability t;
     partialThermalDecayWidth := partialThermalDecayWidth t;
     dominantTemperatureInGigaElectronVolts := v;
     logOfMinusLogOfQuantumProbability := logOfMinusLogOfQuantumProbability t;
     logOfMinusLogOfThermalProbability := logOfMinusLogOfThermalProbability t |}.

Definition set_logOfMinusLogOfQuantumProbability v t :=
  {| quantumSurvivalProbability := quantumSurvivalProbability t;
     quantumLifetimeInSeconds := quantumLifetimeInSeconds t;
     thermalSurvivalProbability := thermalSurvivalProbability t;
     partialThermalDecayWidth := partialThermalDecayWidth t;
     dominantTemperatureInGigaElectronVolts :=
       dominantTemperatureInGigaElectronVolts t;
     logOfMinusLogOfQuantumProbability := v;
     logOfMinusLogOfThermalProbability := logOfMinusLogOfThermalProbability t |}.

Definition set_logOfMinusLogOfThermalProbability v t :=
  {| quantumSurvivalProbability := quantumSurvivalProbability t;
     quantumLifetimeInSeconds := quantumLifetimeInSeconds t;
     thermalSurvivalProbability := thermalSurvivalProbability t;
     partialThermalDecayWidth := partialThermalDecayWidth t;
     dominantTemperatureInGigaElectronVolts :=
       dominantTemperatureInGigaElectronVolts t;
     logOfMinusLogOfQuantumProbability := logOfMinusLogOfQuantumProbability t;
     logOfMinusLogOfThermalProbability := v |}.

(** What a call leaves behind besides the data members: the warnings handed
    to [WarningLogger::LogWarning] (one constructor for each message of the
    source), the lines written to [std::cout], and a mark for each
    sub-calculation that was entered. *)
Inductive Warning :=
| ActionLargePositiveLifetimeCapped (* quantum: lifetime capped, probability one *)
| ActionLargeNegativeLifetimeCapped (* quantum: lifetime capped, probability zero *)
| DecayWidthTooLarge                (* quantum: decay width too large, zero *)
| DsbAboveOrigin                    (* thermal: DSB vacuum above the origin *)
| ThermalActionLargePositive        (* thermal: probability zero *)
| ThermalActionLargeNegative        (* thermal: probability one *)
| IntegratedWidthTooLarge.          (* thermal: integrated width too large *)

Inductive Calculation := Quantum | Thermal.

Inductive Event :=
| Entered (c : Calculation)
| LogWarning (w : Warning)
| CoutNotTunneling          (* the line on the strategy being NoTunneling *)
| CoutNoValidStrategy.      (* the line on no valid strategy being set *)

Definition Event_eqb (a b : Event) : bool :=
  match a, b with
  | Entered Quantum, Entered Quantum => true
  | Entered Thermal, Entered Thermal => true
  | LogWarning x, LogWarning y =>
      match x, y with
      | ActionLargePositiveLifetimeCapped, ActionLargePositiveLifetimeCapped
      | ActionLargeNegativeLifetimeCapped, ActionLargeNegativeLifetimeCapped
      | DecayWidthTooLarge, DecayWidthTooLarge
      | DsbAboveOrigin, DsbAboveOrigin
      | ThermalActionLargePositive, ThermalActionLargePositive
      | ThermalActionLargeNegative, ThermalActionLargeNegative
      | IntegratedWidthTooLarge, IntegratedWidthTooLarge => true
      | _, _ => false
      end
  | CoutNotTunneling, CoutNotTunneling => true
  | CoutNoValidStrategy, CoutNoValidStrategy => true
  | _, _ => false
  end.

(** [happened e evs]: the event [e] is among [evs]. *)
Definition happened (e : Event) (evs : list Event) : bool :=
  existsb (Event_eqb e) evs.

(** A member function either returns or throws [std::runtime_error]. *)
Inductive Outcome (A : Type) :=
| Returned (a : A)
| Threw (what : string).
Arguments Returned {A} a.
Arguments Threw {A} what.

(** A member function: from the data members before the call to its outcome,
    the data members after it, and the events of the call in order.  An
    exception leaves the data members as they were when it was thrown. *)
Definition Member (A : Type) : Type :=
  Tunneler -> Outcome A * Tunneler * list Event.

Definition ret {A} (a : A) : Member A := fun t => (Returned a, t, []).

Definition bind {A B} (m : Member A) (k : A -> Member B) : Member B :=
  fun t =>
    match m t with
    | (Returned a, t1, e1) =>
        match k a t1 with (r, t2, e2) => (r, t2, e1 ++ e2) end
    | (Threw what, t1, e1) => (Threw what, t1, e1)
    end.

Definition throw {A} (what : string) : Member A := fun t => (Threw what, t, []).
Definition emit (e : Event) : Member unit := fun t => (Returned tt, t, [e]).
Definition modify (f : Tunneler -> Tunneler) : Member unit :=
  fun t => (Returned tt, f t, []).
Definition get {A} (f : Tunneler -> A) : Member A :=
  fun t => (Returned (f t), t, []).

Notation "x <- m ;; k" := (bind m (fun x => k))
  (at level 100, m at next level, right associativity).
Notation "m ;;; k" := (bind m (fun _ => k))
  (at level 100, right associativity).

Definition outcome {A} (r : Outcome A * Tunneler * list Event) := fst (fst r).
Definition members {A} (r : Outcome A * Tunneler * list Event) := snd (fst r).
Definition events {A} (r : Outcome A * Tunneler * list Event) := snd r.

(** ** Static constants *)

(** [std::numeric_limits< double >::max()]. *)
Definition DBL_MAX : float := 0x1.fffffffffffffp1023.
Definition maximumAllowedTemperature : float := 2.435E+18.
Definition hBarInGigaElectronVoltSeconds : float := 6.58211928E-25.
Definition ageOfKnownUniverseInSeconds : float := 4.3E+17.
Definition ageOfKnownUniverseInInverseGigaElectronVolts : float :=
  ageOfKnownUniverseInSeconds / hBarInGigaElectronVoltSeconds.
Definition lnOfThermalIntegrationFactor : float := 244.53.

(** The C library's [exp], [log] and [pow]. *)
Class Libm := {
  exp : float -> float;
  log : float -> float;
  pow : float -> float -> float
}.

(** [log( 0.5 * std::numeric_limits< double >::max() )]. *)
Definition maximumPowerOfNaturalExponent {libm : Libm} : float :=
  log (0.5 * DBL_MAX).

(** Constructor arguments ([TunnelingCalculator] and [BounceActionTunneler]). *)
Class Settings := {
  tunnelingStrategy : TunnelingStrategy;
  survivalProbabilityThreshold : float;
  temperatureAccuracy : nat;
  vacuumSeparationFractionSquared : float
}.

(** The potential, passed by reference ([PotentialFunction.hpp]):
    [operator()( fieldConfiguration, temperatureValue )],
    [ScaleSquaredRelevantToTunneling], [FieldValuesOrigin], and the
    [FieldConfigurationAsMathematica] that the error message calls.  The
    potential is evaluated as a function of its arguments. *)
Class PotentialFunction := {
  potentialFunction : list float -> float -> float;
  ScaleSquaredRelevantToTunneling :
    PotentialMinimum -> PotentialMinimum -> float;
  FieldValuesOrigin : list float;
  FieldConfigurationAsMathematica : list float -> string
}.

(** [PotentialMinimum::SquareDistanceTo] and [LengthSquared], whose header is
    not part of the sources. *)
Class MinimumGeometry := {
  SquareDistanceTo : PotentialMinimum -> PotentialMinimum -> float;
  LengthSquared : PotentialMinimum -> float
}.

(** The pure virtual members that a derived class supplies.  Those that
    write data members are functions of the data members; [BounceAction] is
    a function of its arguments; all of them return. *)
Class DerivedTunneler := {
  PrepareCommonExtras : Tunneler -> Tunneler;
  BounceAction : PotentialMinimum -> PotentialMinimum -> float -> float;
  SetUpMaximumTemperatureRanges :
    PotentialMinimum -> PotentialMinimum -> float -> Tunneler -> Tunneler;
  ContinueThermalTunneling :
    PotentialMinimum -> PotentialMinimum -> float -> Tunneler -> Tunneler
}.

Section Tunneler.

Context {libm : Libm} {settings : Settings} {potential : PotentialFunction}
        {geometry : MinimumGeometry} {derived : DerivedTunneler}.

(** ** CalculateQuantumTunneling *)

Definition CalculateQuantumTunneling
    (falseVacuum trueVacuum : PotentialMinimum) : Member unit :=
  emit (Entered Quantum) ;;;
  let quantumAction := BounceAction falseVacuum trueVacuum 0.0 in
  let fourthRootOfSolitonicFactor :=
    PrimFloat.sqrt (ScaleSquaredRelevantToTunneling falseVacuum trueVacuum) in
  modify (set_logOfMinusLogOfQuantumProbability
            (log ((ageOfKnownUniverseInSeconds * hBarInGigaElectronVoltSeconds)
                  / fourthRootOfSolitonicFactor)
             - (0.25 * quantumAction))) ;;;
  if geb quantumAction maximumPowerOfNaturalExponent then
    modify (set_quantumLifetimeInSeconds 1.0E+100) ;;;
    modify (set_quantumSurvivalProbability 1.0) ;;;
    emit (LogWarning ActionLargePositiveLifetimeCapped)
  else if quantumAction <=? - maximumPowerOfNaturalExponent then
    modify (set_quantumLifetimeInSeconds 0.1) ;;;
    modify (set_quantumSurvivalProbability 0.0) ;;;
    emit (LogWarning ActionLargeNegativeLifetimeCapped)
  else
    modify (set_quantumLifetimeInSeconds
              ((exp quantumAction * hBarInGigaElectronVoltSeconds)
               / (pow ageOfKnownUniverseInInverseGigaElectronVolts 3
                  * pow fourthRootOfSolitonicFactor 4))) ;;;
    lifetime <- get quantumLifetimeInSeconds ;;
    let survivalExponent := ageOfKnownUniverseInSeconds / lifetime in
    if geb survivalExponent maximumPowerOfNaturalExponent then
      modify (set_quantumSurvivalProbability 0.0) ;;;
      emit (LogWarning DecayWidthTooLarge)
    else
      modify (set_quantumSurvivalProbability (exp (- survivalExponent))).

(** ** CalculateThermalTunneling *)

Definition CalculateThermalTunneling
    (falseVacuum trueVacuum : PotentialMinimum) : Member unit :=
  emit (Entered Thermal) ;;;
  let thresholdSeparationSquared :=
    vacuumSeparationFractionSquared * SquareDistanceTo falseVacuum trueVacuum in
  let DsbRolledToOrigin :=
    LengthSquared falseVacuum <? thresholdSeparationSquared in
  let potentialAtOriginAtZeroTemperature :=
    potentialFunction FieldValuesOrigin 0.0 in
  if gtb (potentialFunction (FieldConfiguration falseVacuum) 0.0)
         potentialAtOriginAtZeroTemperature
     && negb DsbRolledToOrigin
  then
    modify (set_dominantTemperatureInGigaElectronVolts 0.0) ;;;
    modify (set_thermalSurvivalProbability 0.0) ;;;
    modify (set_logOfMinusLogOfThermalProbability
              (- exp maximumPowerOfNaturalExponent)) ;;;
    emit (LogWarning DsbAboveOrigin)
  else
    modify (SetUpMaximumTemperatureRanges falseVacuum trueVacuum
              potentialAtOriginAtZeroTemperature) ;;;
    modify (ContinueThermalTunneling falseVacuum trueVacuum
              potentialAtOriginAtZeroTemperature).

(** ** CalculateTunneling *)

Definition notDeeperMessage (falseVacuum trueVacuum : PotentialMinimum)
  : string :=
  ("Tunneling from a given vacuum at"
   ++ FieldConfigurationAsMathematica (FieldConfiguration falseVacuum)
   ++ " to what should be a deeper vacuum at "
   ++ FieldConfigurationAsMathematica (FieldConfiguration trueVacuum)
   ++ " requested, but the given deeper vacuum was not actually deeper, so"
   ++ " tunneling is impossible.")%string.

Definition CalculateTunneling
    (falseVacuum trueVacuum : PotentialMinimum) : Member unit :=
  if negb (potentialFunction (FieldConfiguration trueVacuum) 0.0
           <? potentialFunction (FieldConfiguration falseVacuum) 0.0)
  then throw (notDeeperMessage falseVacuum trueVacuum)
  else
    (* First we set all variables to their "not calculated" values. *)
    modify (set_quantumSurvivalProbability (-1.0)) ;;;
    modify (set_quantumLifetimeInSeconds (-1.0)) ;;;
    modify (set_thermalSurvivalProbability (-1.0)) ;;;
    modify (set_partialThermalDecayWidth (-1.0)) ;;;
    modify (set_dominantTemperatureInGigaElectronVolts (-1.0)) ;;;
    match tunnelingStrategy with
    | NoTunneling => emit CoutNotTunneling
    | _ =>
      modify PrepareCommonExtras ;;;
      match tunnelingStrategy with
      | JustQuantum => CalculateQuantumTunneling falseVacuum trueVacuum
      | JustThermal => CalculateThermalTunneling falseVacuum trueVacuum
      | QuantumThenThermal =>
          CalculateQuantumTunneling falseVacuum trueVacuum ;;;
          q <- get quantumSurvivalProbability ;;
          if gtb q survivalProbabilityThreshold
          then CalculateThermalTunneling falseVacuum trueVacuum
          else ret tt
      | ThermalThenQuantum =>
          CalculateThermalTunneling falseVacuum trueVacuum ;;;
          p <- get thermalSurvivalProbability ;;
          if gtb p survivalProbabilityThreshold
          then CalculateQuantumTunneling falseVacuum trueVacuum
          else ret tt
      | _ => emit CoutNoValidStrategy
      end
    end.

(** ** SetThermalSurvivalProbability and SetPartialThermalDecayWidth *)

Definition SetThermalSurvivalProbability : Member unit :=
  l <- get logOfMinusLogOfThermalProbability ;;
  if geb l maximumPowerOfNaturalExponent then
    modify (set_thermalSurvivalProbability 0.0) ;;;
    emit (LogWarning ThermalActionLargePositive)
  else if l <=? - maximumPowerOfNaturalExponent then
    emit (LogWarning ThermalActionLargeNegative) ;;;
    modify (set_thermalSurvivalProbability 1.0)
  else if geb (exp l) maximumPowerOfNaturalExponent then
    modify (set_thermalSurvivalProbability 0.0) ;;;
    emit (LogWarning IntegratedWidthTooLarge)
  else
    modify (set_thermalSurvivalProbability (exp (- exp l))).

Definition SetPartialThermalDecayWidth (partialDecayWidth : float)
  : Member unit :=
  l <- get logOfMinusLogOfThermalProbability ;;
  if geb l maximumPowerOfNaturalExponent then
    modify (set_partialThermalDecayWidth (-1.0))
  else if l <=? - maximumPowerOfNaturalExponent then
    modify (set_partialThermalDecayWidth 0.0)
  else if geb (exp l) maximumPowerOfNaturalExponent then
    modify (set_partialThermalDecayWidth 1E100)
  else
    modify (set_partialThermalDecayWidth partialDecayWidth).

End Tunneler.

End BounceActionTunneler.

(* ===================================================================== *)
(** * BounceActionTunneler::SetMaximumTunnelingTemperatureRange *)
(* ===================================================================== *)

(** Temperatures are [double]s, as in the code: the sum
    [temperatureGuess + temperatureGuess], the products by [0.5] and the
    square root of the product of the ends are the rounded operations of
    binary64, so that a guess can overflow to infinity, underflow to zero or
    be a NaN. *)
Module TemperatureRange.

Import Double BounceActionTunneler.
Open Scope float_scope.

(** What the first [while] loop ends with. *)
Inductive Raised :=
| PersistsToPlanck                       (* the early [return] *)
| NotBelow (temperatureGuess : float).   (* the loop condition failed, or [break] *)

(** What the function leaves in [rangeOfMaxTemperature], and the
    temperatures the narrowing loop tried, in order. *)
Inductive Found :=
| AtPlanckTemperature (rangeOfMaxTemperature : float * float)
| Bracketed (rangeOfMaxTemperature : float * float) (tried : list float).

Section Search.

Context {libm : Libm}.

(** [BelowCriticalTemperature( potentialFunction, temperatureGuess,
    zeroTemperatureVacuum )], a pure virtual member, for the potential and
    the vacuum of the call. *)
Variable BelowCriticalTemperature : float -> bool.

(** The constructor argument [temperatureAccuracy]. *)
Variable temperatureAccuracy : nat.

(** The doubling loop.  [fuel] bounds the number of times the loop condition
    is evaluated; [None] is a loop that has not ended by then. *)
Fixpoint raiseGuess (fuel : nat) (temperatureGuess : float) : option Raised :=
  match fuel with
  | O => None
  | S fuel' =>
      if BelowCriticalTemperature temperatureGuess then
        let temperatureGuess := temperatureGuess + temperatureGuess in
        if geb temperatureGuess maximumAllowedTemperature then
          let temperatureGuess := maximumAllowedTemperature in
          if BelowCriticalTemperature temperatureGuess
          then Some PersistsToPlanck
          else Some (NotBelow temperatureGuess)
        else raiseGuess fuel' temperatureGuess
      else Some (NotBelow temperatureGuess)
  end.

(** The halving loop. *)
Fixpoint lowerGuess (fuel : nat) (temperatureGuess : float) : option float :=
  match fuel with
  | O => None
  | S fuel' =>
      if negb (BelowCriticalTemperature temperatureGuess)
      then lowerGuess fuel' (0.5 * temperatureGuess)
      else Some temperatureGuess
  end.

(** One pass of the body of the narrowing [for] loop. *)
Definition narrowingGuess (range : float * float) : float :=
  PrimFloat.sqrt (fst range * snd range).

Definition narrowingStep (range : float * float) : float * float :=
  let temperatureGuess := narrowingGuess range in
  if BelowCriticalTemperature temperatureGuess
  then (temperatureGuess, snd range)
  else (fst range, temperatureGuess).

(** [for( narrowingStep = 0; narrowingStep < temperatureAccuracy;
    ++narrowingStep )], with the guesses it tried. *)
Fixpoint narrowingLoop (steps : nat) (range : float * float)
    (tried : list float) : float * float * list float :=
  match steps with
  | O => (range, tried)
  | S steps' =>
      narrowingLoop steps' (narrowingStep range)
                    (tried ++ [narrowingGuess range])
  end.

(** [potentialAtVacuum] is
    [potentialFunction( zeroTemperatureVacuum.FieldConfiguration() )]. *)
Definition SetMaximumTunnelingTemperatureRange (fuel : nat)
    (potentialAtOriginAtZeroTemperature potentialAtVacuum : float)
  : option Found :=
  let temperatureGuess :=
    pow (0.2 * (potentialAtOriginAtZeroTemperature - potentialAtVacuum))
        0.25 in
  match raiseGuess fuel temperatureGuess with
  | None => None
  | Some PersistsToPlanck =>
      Some (AtPlanckTemperature
              (maximumAllowedTemperature, maximumAllowedTemperature))
  | Some (NotBelow temperatureGuess) =>
      match lowerGuess fuel (0.5 * temperatureGuess) with
      | None => None
      | Some temperatureGuess =>
          let '(range, tried) :=
            narrowingLoop temperatureAccuracy
              (temperatureGuess, temperatureGuess + temperatureGuess) [] in
          Some (Bracketed range tried)
      end
  end.

End Search.

End TemperatureRange.

(* ===================================================================== *)
(** * NodesOnBisectingPlanes.cpp *)
(* ===================================================================== *)

Module NodesOnBisectingPlanes.

Open Scope N_scope.

(** ** [size_t]: 64 bits, arithmetic modulo [2^64] *)

Definition wrap (x : N) : N := x mod 2 ^ 64.
Definition add (a b : N) : N := wrap (a + b).
Definition sub (a b : N) : N := wrap (a + 2 ^ 64 - wrap b).
Definition mul (a b : N) : N := wrap (a * b).

(** [for( i = from; i < to; ++i )] over a state. *)
Fixpoint forCount {S : Type} (count : nat) (i : N) (body : N -> S -> S)
    (s : S) : S :=
  match count with
  | O => s
  | Datatypes.S count' => forCount count' (add i 1) body (body i s)
  end.

Definition forRange {S : Type} (from to : N) (body : N -> S -> S) (s : S)
  : S :=
  forCount (N.to_nat (to - from)) from body s.

(** ** The constructor *)

Definition Matrix := list (list float).

Record NodesOnBisectingPlanes := {
  numberOfFields : N;
  numberOfIntermediateNodes : N;
  pathNodes : list (list float);
  adjustmentOrder : list N;
  sideNodeIndices : list (N * N);
  rotationMatrices : list Matrix
}.

(** [while( this->numberOfIntermediateNodes <= numberOfIntermediateNodes )].
    [fuel] bounds the number of times the condition is evaluated; [None] is
    a loop that has not ended by then. *)
Fixpoint doubleUntilAbove (fuel : nat) (requested current numberOfSplits : N)
  : option (N * N) :=
  match fuel with
  | O => None
  | S fuel' =>
      if current <=? requested
      then doubleUntilAbove fuel' requested (mul current 2)
                            (add numberOfSplits 1)
      else Some (current, numberOfSplits)
  end.

(** The body of the inner loop: one node is scheduled. *)
Definition scheduleNode (segmentSize whichSegment : N)
    (plan : list N * list (N * N)) : list N * list (N * N) :=
  let currentIndex := mul segmentSize (add 1 (mul 2 whichSegment)) in
  (fst plan ++ [currentIndex],
   <[ N.to_nat currentIndex :=
        (sub currentIndex segmentSize, add currentIndex segmentSize) ]>
     (snd plan)).

(** The state of the outer loop: [segmentSize], [newSegmentsInSplit],
    [adjustmentOrder] and [sideNodeIndices]. *)
Definition splitOnce (state : N * N * (list N * list (N * N)))
  : N * N * (list N * list (N * N)) :=
  let '(segmentSize, newSegmentsInSplit, plan) := state in
  let segmentSize := segmentSize / 2 in
  (segmentSize, mul newSegmentsInSplit 2,
   forRange 0 newSegmentsInSplit (scheduleNode segmentSize) plan).

(** [Eigen::MatrixXd( numberOfFields, numberOfFields )] leaves its
    coefficients unset; [unset] stands for what they hold. *)
Definition newMatrix (unset : float) (rows columns : N) : Matrix :=
  replicate (N.to_nat rows) (replicate (N.to_nat columns) unset).

(** [basePathNodes] is what the constructor of the base class
    [NodesOnPlanes], which is not part of the sources, left in [pathNodes].
    The model is of a call whose base-class constructor has returned and
    whose three [resize] calls are granted their memory: above [max_size()]
    a [resize] throws [std::length_error], and [std::bad_alloc] when memory
    runs out, and no object exists then.  [Some p] is the object that a
    returning call leaves; [None] is a loop that has not ended. *)
Definition construct (fuel : nat) (unset : float)
    (basePathNodes : list (list float))
    (numberOfFields numberOfIntermediateNodes : N)
  : option NodesOnBisectingPlanes :=
  match doubleUntilAbove fuel numberOfIntermediateNodes 1 0 with
  | None => None
  | Some (doubled, numberOfSplits) =>
      let thisNumberOfIntermediateNodes := sub doubled 1 in
      let size := add thisNumberOfIntermediateNodes 2 in
      let '(_, _, (order, sides)) :=
        Nat.iter (N.to_nat numberOfSplits) splitOnce
                 (sub size 1, 1, ([], replicate (N.to_nat size) (0, 0))) in
      Some {| numberOfFields := numberOfFields;
              numberOfIntermediateNodes := thisNumberOfIntermediateNodes;
              pathNodes := resize (N.to_nat size) [] basePathNodes;
              adjustmentOrder := order;
              sideNodeIndices := sides;
              rotationMatrices :=
                replicate (N.to_nat size)
                          (newMatrix unset numberOfFields numberOfFields) |}
  end.

(** ** UpdateRotationMatrix *)

Open Scope float_scope.

(** [rotationMatrix( rowIndex, columnIndex )], read and written. *)
Definition coeff (m : Matrix) (rowIndex columnIndex : N) : float :=
  nth (N.to_nat columnIndex) (nth (N.to_nat rowIndex) m []) nan.

Definition setCoeff (rowIndex columnIndex : N) (value : float) (m : Matrix)
  : Matrix :=
  alter (fun row => <[ N.to_nat columnIndex := value ]> row)
        (N.to_nat rowIndex) m.

(** [v[ i ]], [v.front()] and [v.back()] of a [std::vector< double >]. *)
Definition at_ (v : list float) (i : N) : float := nth (N.to_nat i) v nan.
Definition front (v : list float) : float := at_ v 0.
Definition back (v : list float) : float := List.last v nan.

(** The body of the loop over [columnIndex]: the state is the matrix and
    [sumOfElementSquares]. *)
Definition fillColumn (numberOfFields referenceField columnIndex : N)
    (state : Matrix * float) : Matrix * float :=
  let '(rotationMatrix, sumOfElementSquares) := state in
  let columnInsertionIndex :=
    if (referenceField <=? columnIndex)%N
    then add columnIndex 1 else columnIndex in
  let diagonalNumerator := coeff rotationMatrix columnIndex referenceField in
  let inverseNextDiagonal :=
    1.0 / coeff rotationMatrix (add columnIndex 1) referenceField in
  let sumOfElementSquares :=
    sumOfElementSquares + (diagonalNumerator * diagonalNumerator) in
  let inverseEuclideanLength :=
    1.0 / PrimFloat.sqrt
            (sumOfElementSquares
             * (1.0 + (sumOfElementSquares
                       * inverseNextDiagonal * inverseNextDiagonal))) in
  let rotationMatrix :=
    forRange 1 (add columnIndex 1)
      (fun rowIndex m =>
         setCoeff rowIndex columnInsertionIndex
                  (coeff m rowIndex referenceField * inverseEuclideanLength) m)
      rotationMatrix in
  let rotationMatrix :=
    setCoeff (add columnIndex 1) columnInsertionIndex
             ((- sumOfElementSquares * inverseNextDiagonal)
              / inverseEuclideanLength) rotationMatrix in
  let rotationMatrix :=
    forRange (add columnIndex 2) numberOfFields
      (fun rowIndex m => setCoeff rowIndex columnInsertionIndex 0.0 m)
      rotationMatrix in
  (rotationMatrix, sumOfElementSquares).

(** [startNode] and [endNode] are [FalseSideNode( nodeIndex, pathNodes )] and
    [TrueSideNode( nodeIndex, pathNodes )]; [rotationMatrix] is
    [rotationMatrices[ nodeIndex ]] before the call, and the result is what
    the call leaves there. *)
Definition UpdateRotationMatrix (numberOfFields referenceField : N)
    (startNode endNode : list float) (rotationMatrix : Matrix) : Matrix :=
  let firstDifference := front endNode - back startNode in
  let rotationMatrix :=
    forRange 0 numberOfFields
      (fun columnIndex m => setCoeff 0 columnIndex firstDifference m)
      rotationMatrix in
  let rotationMatrix :=
    forRange 1 numberOfFields
      (fun rowIndex m =>
         setCoeff rowIndex referenceField
                  (at_ endNode rowIndex - at_ startNode rowIndex) m)
      rotationMatrix in
  let '(rotationMatrix, sumOfElementSquares) :=
    forRange 0 (sub numberOfFields 1)
      (fillColumn numberOfFields referenceField)
      (rotationMatrix, 0.0) in
  (* Finally we need to normalize the (referenceField)th column. *)
  let lastDiagonal :=
    coeff rotationMatrix (sub numberOfFields 1) referenceField in
  let sumOfElementSquares :=
    sumOfElementSquares + (lastDiagonal * lastDiagonal) in
  let inverseEuclideanLength := 1.0 / PrimFloat.sqrt sumOfElementSquares in
  forRange 0 numberOfFields
    (fun rowIndex m =>
       setCoeff rowIndex referenceField
                (coeff m rowIndex referenceField * inverseEuclideanLength) m)
    rotationMatrix.

(** The product of the transpose with the matrix, coefficient
    [( firstColumn, secondColumn )]: the dot product of two columns. *)
Definition columnDot (numberOfFields : N) (m : Matrix)
    (firstColumn secondColumn : N) : float :=
  forRange 0 numberOfFields
    (fun rowIndex total =>
       total + coeff m rowIndex firstColumn * coeff m rowIndex secondColumn)
    0.0.

End NodesOnBisectingPlanes.

(* ===================================================================== *)
(** * GradientFromStartingPoints.cpp: the retry loop of FindMinima *)
(* ===================================================================== *)

Module GradientFromStartingPoints.

Import Double.
Import BounceActionTunneler (PotentialMinimum, FunctionValue, FunctionError).
Open Scope float_scope.

Section FindMinima.

(** [GradientMinimizer::operator()( startingPoint )], a [const] member. *)
Variable gradientMinimizer : list float -> PotentialMinimum.

(** The condition of the [while] loop. *)
Definition minuitFailed (foundMinimum : PotentialMinimum) : bool :=
  isnan (FunctionValue foundMinimum) || isnan (FunctionError foundMinimum).

(** A copy of the starting point with every field multiplied by [0.8]. *)
Definition scaledPoint (realSolution : list float) : list float :=
  map (fun scaledField => scaledField * 0.8) realSolution.

(** The [while] loop of lines 110-128.  [fuel] bounds the number of times
    its condition is evaluated; the result is the minimum the loop ends
    with and the number of times its body ran, [None] if the loop has not
    ended by then. *)
Fixpoint retryWhileNaN (fuel : nat) (realSolution : list float)
    (foundMinimum : PotentialMinimum) (retries : nat)
  : option (PotentialMinimum * nat) :=
  match fuel with
  | O => None
  | S fuel' =>
      if minuitFailed foundMinimum
      then retryWhileNaN fuel' realSolution
                         (gradientMinimizer (scaledPoint realSolution))
                         (S retries)
      else Some (foundMinimum, retries)
  end.

(** The first call of the minimizer on the starting point [realSolution],
    followed by the loop. *)
Definition rollFromStartingPoint (fuel : nat) (realSolution : list float)
  : option (PotentialMinimum * nat) :=
  retryWhileNaN fuel realSolution (gradientMinimizer realSolution) 0.

End FindMinima.

End GradientFromStartingPoints.

(* ===================================================================== *)
(** * NodesOnBisectingPlanes::AddTransformedNode *)
(* ===================================================================== *)

Module AddTransformedNode.

Import NodesOnBisectingPlanes.
Open Scope float_scope.

(** The first loop: [nodeInPlane], an [Eigen::VectorXd( numberOfFields )]
    whose coefficients hold [unset] until they are written. *)
Definition nodeInPlane (unset : float) (numberOfFields referenceField : N)
    (nodeParameterization : list float) : list float :=
  let nodeInPlane := replicate (N.to_nat numberOfFields) unset in
  let nodeInPlane := <[ N.to_nat referenceField := 0.0 ]> nodeInPlane in
  forRange 0 numberOfFields
    (fun fieldIndex nodeInPlane =>
       if (fieldIndex <? referenceField)%N then
         <[ N.to_nat fieldIndex := at_ nodeParameterization fieldIndex ]>
           nodeInPlane
       else if (referenceField <? fieldIndex)%N then
         <[ N.to_nat fieldIndex :=
              at_ nodeParameterization (sub fieldIndex 1) ]> nodeInPlane
       else nodeInPlane)
    nodeInPlane.

(** [product] is Eigen's product of a matrix with a vector, whose order of
    summation is Eigen's own. *)
Definition AddTransformedNode
    (product : Matrix -> list float -> list float) (unset : float)
    (numberOfFields referenceField : N) (rotationMatrices : list Matrix)
    (nodeVector : list float) (nodeIndex : N)
    (nodeParameterization : list float) : list float :=
  let rotatedNode :=
    product (nth (N.to_nat nodeIndex) rotationMatrices [])
            (nodeInPlane unset numberOfFields referenceField
                         nodeParameterization) in
  forRange 0 numberOfFields
    (fun fieldIndex nodeVector =>
       <[ N.to_nat fieldIndex :=
            at_ nodeVector fieldIndex + at_ rotatedNode fieldIndex ]>
         nodeVector)
    nodeVector.

End AddTransformedNode.

(* ===================================================================== *)
(** * PotentialFunction.hpp: FieldName and FieldIndex *)
(* ===================================================================== *)

Module PotentialFunctionHeader.

Open Scope N_scope.

(** [unsigned int]: 32 bits.  [UINT_MAX] is what [return -1] gives. *)
Definition UINT_MAX : N := 2 ^ 32 - 1.
Definition increment (fieldIndex : N) : N := (fieldIndex + 1) mod 2 ^ 32.

(** [fieldNames[ fieldIndex ]]; the empty string stands for what an index
    out of range reads. *)
Definition FieldName (fieldNames : list string) (fieldIndex : N) : string :=
  nth (N.to_nat fieldIndex) fieldNames EmptyString.

(** The [for] loop of [FieldIndex] from [fieldIndex] on.  [fuel] bounds the
    number of times its condition is evaluated. *)
Fixpoint FieldIndexFrom (fuel : nat) (fieldNames : list string)
    (fieldName : string) (fieldIndex : N) : option N :=
  match fuel with
  | O => None
  | S fuel' =>
      if fieldIndex <? N.of_nat (length fieldNames) then
        if String.eqb fieldName (FieldName fieldNames fieldIndex)
        then Some fieldIndex
        else FieldIndexFrom fuel' fieldNames fieldName (increment fieldIndex)
      else Some UINT_MAX
  end.

Definition FieldIndex (fuel : nat) (fieldNames : list string)
    (fieldName : string) : option N :=
  FieldIndexFrom fuel fieldNames fieldName 0.

End PotentialFunctionHeader.

(* ===================================================================== *)
(** * GradientFromStartingPoints.cpp: FindMinima as a whole *)
(* ===================================================================== *)

Module FindMinima.

Import Double.
Import BounceActionTunneler (PotentialMinimum, FunctionValue, FunctionError).
Import GradientFromStartingPoints.
Open Scope float_scope.

(** The data members of [GradientFromStartingPoints] and of its base class
    [PotentialMinimizer] that [FindMinima] reads or writes. *)
Record Minimizer := {
  dsbVacuum : PotentialMinimum;
  foundMinima : list PotentialMinimum;
  panicVacua : list PotentialMinimum;
  panicVacuum : PotentialMinimum;
  panicVacuum_global : PotentialMinimum;
  panicVacuum_nearest : PotentialMinimum;
  startingPoints : list (list float);
  done_homotopy : bool;
  global_Is_Panic : bool
}.

(** What [FindMinima] calls and the sources do not hold: the minimizer at
    the temperature set by [SetTemperature], the starting point finder (it
    is handed [startingPoints] by reference), [DsbFieldValues], the
    distances of [PotentialMinimum] (to a minimum and to a point), and
    [IsNotPhaseRotationOfDsbVacuum] for the DSB vacuum of the object. *)
Class Collaborators := {
  gradientMinimizer : float -> list float -> PotentialMinimum;
  startingPointFinder : list (list float) -> list (list float);
  DsbFieldValues : list float;
  LengthSquared : PotentialMinimum -> float;
  SquareDistanceTo : PotentialMinimum -> PotentialMinimum -> float;
  SquareDistanceToPoint : PotentialMinimum -> list float -> float;
  IsNotPhaseRotationOfDsbVacuum :
    PotentialMinimum -> PotentialMinimum -> float -> bool;
  extremumSeparationThresholdFraction : float;
  nonDsbRollingToDsbScalingFactor : float
}.

Section FindMinima.

Context {collaborators : Collaborators}.

Definition thresholdSeparationSquared (dsb : PotentialMinimum) : float :=
  (extremumSeparationThresholdFraction
   * extremumSeparationThresholdFraction * LengthSquared dsb) + 1.0.

(** [rolledToDsbOrSignFlip]. *)
Definition rolledToDsbOrSignFlip (dsb foundMinimum : PotentialMinimum)
  : bool :=
  (SquareDistanceTo foundMinimum dsb <? thresholdSeparationSquared dsb)
  || negb (IsNotPhaseRotationOfDsbVacuum dsb foundMinimum
             (PrimFloat.sqrt (thresholdSeparationSquared dsb))).

(** The loop over the fields of [scaledPoint]: [lengthSquared] and the
    scaled point. *)
Definition scaleAndMeasure (realSolution : list float)
  : float * list float :=
  (fold_left (fun lengthSquared scaledField =>
                lengthSquared + (scaledField * scaledField))
             realSolution 0.0,
   map (fun scaledField => scaledField * nonDsbRollingToDsbScalingFactor)
       realSolution).

(** The second roll, from a scaled starting point, of a starting point that
    rolled to the DSB vacuum. *)
Definition rollAgain (minimizationTemperature : float)
    (dsb : PotentialMinimum) (realSolution : list float)
    (foundMinimum : PotentialMinimum) : PotentialMinimum * bool :=
  let rolled := rolledToDsbOrSignFlip dsb foundMinimum in
  if rolled
     && gtb (SquareDistanceToPoint dsb realSolution)
            (thresholdSeparationSquared dsb)
  then
    let '(lengthSquared, scaledPoint) := scaleAndMeasure realSolution in
    if gtb lengthSquared (thresholdSeparationSquared dsb) then
      let foundMinimum :=
        gradientMinimizer minimizationTemperature scaledPoint in
      (foundMinimum, rolledToDsbOrSignFlip dsb foundMinimum)
    else (foundMinimum, rolled)
  else (foundMinimum, rolled).

(** The end of the loop body: [foundMinimum] is recorded, and kept as a
    panic vacuum if it lies below the DSB vacuum. *)
Definition record (foundMinimum : PotentialMinimum) (rolled : bool)
    (m : Minimizer) : Minimizer :=
  let foundMinima' := foundMinima m ++ [foundMinimum] in
  if ((FunctionValue foundMinimum + FunctionError foundMinimum)
      <? FunctionValue (dsbVacuum m))
     && negb rolled
  then
    let isFirst := match panicVacua m with [] => true | _ => false end in
    let global :=
      if isFirst
         || (FunctionValue foundMinimum
             <? FunctionValue (panicVacuum_global m))
      then foundMinimum else panicVacuum_global m in
    let nearest :=
      if isFirst
         || (SquareDistanceTo foundMinimum (dsbVacuum m)
             <? SquareDistanceTo (panicVacuum_nearest m) (dsbVacuum m))
      then foundMinimum else panicVacuum_nearest m in
    {| dsbVacuum := dsbVacuum m;
       foundMinima := foundMinima';
       panicVacua := panicVacua m ++ [foundMinimum];
       panicVacuum := if global_Is_Panic m then global else nearest;
       panicVacuum_global := global;
       panicVacuum_nearest := nearest;
       startingPoints := startingPoints m;
       done_homotopy := done_homotopy m;
       global_Is_Panic := global_Is_Panic m |}
  else
    {| dsbVacuum := dsbVacuum m;
       foundMinima := foundMinima';
       panicVacua := panicVacua m;
       panicVacuum := panicVacuum m;
       panicVacuum_global := panicVacuum_global m;
       panicVacuum_nearest := panicVacuum_nearest m;
       startingPoints := startingPoints m;
       done_homotopy := done_homotopy m;
       global_Is_Panic := global_Is_Panic m |}.

(** The body of the loop over the starting points; [None] when the retry
    loop has not ended within [fuel]. *)
Definition fromStartingPoint (fuel : nat) (minimizationTemperature : float)
    (realSolution : list float) (m : Minimizer) : option Minimizer :=
  match rollFromStartingPoint (gradientMinimizer minimizationTemperature)
                              fuel realSolution with
  | None => None
  | Some (foundMinimum, _) =>
      let '(foundMinimum, rolled) :=
        rollAgain minimizationTemperature (dsbVacuum m) realSolution
                  foundMinimum in
      Some (record foundMinimum rolled m)
  end.

Fixpoint overStartingPoints (fuel : nat) (minimizationTemperature : float)
    (points : list (list float)) (m : Minimizer) : option Minimizer :=
  match points with
  | [] => Some m
  | realSolution :: points' =>
      match fromStartingPoint fuel minimizationTemperature realSolution m
      with
      | None => None
      | Some m' =>
          overStartingPoints fuel minimizationTemperature points' m'
      end
  end.

Definition FindMinima (fuel : nat) (minimizationTemperature : float)
    (m : Minimizer) : option Minimizer :=
  let dsb := gradientMinimizer minimizationTemperature DsbFieldValues in
  let points :=
    if done_homotopy m then startingPoints m
    else startingPointFinder (startingPoints m) in
  overStartingPoints fuel minimizationTemperature points
    {| dsbVacuum := dsb;
       foundMinima := foundMinima m;
       panicVacua := panicVacua m;
       panicVacuum := panicVacuum m;
       panicVacuum_global := panicVacuum_global m;
       panicVacuum_nearest := panicVacuum_nearest m;
       startingPoints := points;
       done_homotopy := true;
       global_Is_Panic := global_Is_Panic m |}.

(** [setWhichPanicVacuum]. *)
Definition setWhichPanicVacuum (global_Is_Panic_setting : bool)
    (m : Minimizer) : Minimizer :=
  {| dsbVacuum := dsbVacuum m;
     foundMinima := foundMinima m;
     panicVacua := panicVacua m;
     panicVacuum := panicVacuum m;
     panicVacuum_global := panicVacuum_global m;
     panicVacuum_nearest := panicVacuum_nearest m;
     startingPoints := startingPoints m;
     done_homotopy := done_homotopy m;
     global_Is_Panic := global_Is_Panic_setting |}.

End FindMinima.

End FindMinima.

(* ********************************************************************* *)
(** * Properties *)
(* ********************************************************************* *)

(* ===================================================================== *)
(** * Tunneling: direction check, strategies and saturation *)
(* ===================================================================== *)

Module BounceActionTunnelerSpec.

Import Double BounceActionTunneler.
Open Scope float_scope.

(** A value at or below [-m], with [m] positive, is not at or above [m]. *)
Lemma leb_opp_pos_not_geb (x m : float) :
  (0 <? m) = true -> (x <=? - m) = true -> geb x m = false.
Proof.
  unfold geb.
  rewrite ltb_spec, !leb_spec, opp_spec.
  change (Prim2SF 0) with (S754_zero false).
  destruct (Prim2SF m) as [sm| sm | | sm mm em],
           (Prim2SF x) as [sx|sx| |sx mx ex];
    try destruct sm; try destruct sx; cbn; try congruence; auto.
Qed.

(** The five result members set to their "not calculated" values. *)
Definition notCalculated (t : Tunneler) : Tunneler :=
  set_dominantTemperatureInGigaElectronVolts (-1.0)
    (set_partialThermalDecayWidth (-1.0)
       (set_thermalSurvivalProbability (-1.0)
          (set_quantumLifetimeInSeconds (-1.0)
             (set_quantumSurvivalProbability (-1.0) t)))).

Section Properties.

Context {libm : Libm} {settings : Settings} {potential : PotentialFunction}
        {geometry : MinimumGeometry} {derived : DerivedTunneler}.

Ltac run := cbv [bind ret emit modify get throw outcome members events
                 fst snd app].

Lemma CalculateQuantumTunneling_returns fv tv t :
  exists t1 e1,
    CalculateQuantumTunneling fv tv t = (Returned tt, t1, e1)
    /\ happened (Entered Thermal) e1 = false
    /\ happened (Entered Quantum) e1 = true.
Proof.
  unfold CalculateQuantumTunneling. run.
  repeat match goal with |- context [if ?c then _ else _] => destruct c end;
    eauto.
Qed.

Lemma CalculateThermalTunneling_returns fv tv t :
  exists t1 e1,
    CalculateThermalTunneling fv tv t = (Returned tt, t1, e1)
    /\ happened (Entered Quantum) e1 = false
    /\ happened (Entered Thermal) e1 = true.
Proof.
  unfold CalculateThermalTunneling. run.
  repeat match goal with |- context [if ?c then _ else _] => destruct c end;
    eauto.
Qed.

Lemma bind_modify {A} f (k : unit -> Member A) t :
  bind (modify f) k t = k tt (f t).
Proof. unfold bind, modify. destruct (k tt (f t)) as [[? ?] ?]. reflexivity. Qed.

Lemma bind_get {A B} (f : Tunneler -> A) (k : A -> Member B) t :
  bind (get f) k t = k (f t) t.
Proof. unfold bind, get. destruct (k (f t) t) as [[? ?] ?]. reflexivity. Qed.

Lemma happened_app e l1 l2 :
  happened e (l1 ++ l2) = happened e l1 || happened e l2.
Proof. apply existsb_app. Qed.

(** What [CalculateTunneling] does once the direction check has passed. *)
Lemma CalculateTunneling_deeper fv tv t :
  (potentialFunction (FieldConfiguration tv) 0.0
   <? potentialFunction (FieldConfiguration fv) 0.0) = true ->
  CalculateTunneling fv tv t =
  let start := PrepareCommonExtras (notCalculated t) in
  match tunnelingStrategy with
  | NoTunneling => (Returned tt, notCalculated t, [CoutNotTunneling])
  | JustQuantum => CalculateQuantumTunneling fv tv start
  | JustThermal => CalculateThermalTunneling fv tv start
  | QuantumThenThermal =>
      (CalculateQuantumTunneling fv tv ;;;
       q <- get quantumSurvivalProbability ;;
       if gtb q survivalProbabilityThreshold
       then CalculateThermalTunneling fv tv else ret tt) start
  | ThermalThenQuantum =>
      (CalculateThermalTunneling fv tv ;;;
       p <- get thermalSurvivalProbability ;;
       if gtb p survivalProbabilityThreshold
       then CalculateQuantumTunneling fv tv else ret tt) start
  | NotSet => (Returned tt, start, [CoutNoValidStrategy])
  end.
Proof.
  intros Hlt. unfold CalculateTunneling. rewrite Hlt. cbn [negb].
  rewrite !bind_modify. fold (notCalculated t).
  destruct tunnelingStrategy; rewrite ?bind_modify; reflexivity.
Qed.

(** C1.  Whatever the potential and the two minima, when the potential at
    the claimed true vacuum is not strictly below the potential at the
    claimed false vacuum (a NaN included), [CalculateTunneling] throws the
    "not actually deeper" error, and nothing was done before the throw: no
    event, so neither the quantum nor the thermal calculation was entered. *)
Theorem CalculateTunneling_not_deeper_throws fv tv t :
  (potentialFunction (FieldConfiguration tv) 0.0
   <? potentialFunction (FieldConfiguration fv) 0.0) = false ->
  outcome (CalculateTunneling fv tv t) = Threw (notDeeperMessage fv tv)
  /\ events (CalculateTunneling fv tv t) = []
  /\ happened (Entered Quantum) (events (CalculateTunneling fv tv t)) = false
  /\ happened (Entered Thermal) (events (CalculateTunneling fv tv t)) = false.
Proof.
  intros Hnot. unfold CalculateTunneling. rewrite Hnot. cbn. auto.
Qed.

Lemma CalculateTunneling_deeper_returns fv tv t :
  (potentialFunction (FieldConfiguration tv) 0.0
   <? potentialFunction (FieldConfiguration fv) 0.0) = true ->
  outcome (CalculateTunneling fv tv t) = Returned tt.
Proof.
  intros Hlt. rewrite (CalculateTunneling_deeper _ _ _ Hlt). cbv zeta.
  set (start := PrepareCommonExtras (notCalculated t)).
  destruct (CalculateQuantumTunneling_returns fv tv start)
    as (tq & eq & EQ & _).
  destruct (CalculateThermalTunneling_returns fv tv start)
    as (tt' & et & ET & _).
  destruct tunnelingStrategy; try reflexivity;
    unfold bind, get, ret; rewrite ?EQ, ?ET; try reflexivity.
  - destruct (gtb _ _); [|reflexivity].
    destruct (CalculateThermalTunneling_returns fv tv tq) as (t2 & e2 & E2 & _).
    rewrite E2. reflexivity.
  - destruct (gtb _ _); [|reflexivity].
    destruct (CalculateQuantumTunneling_returns fv tv tt') as (t2 & e2 & E2 & _).
    rewrite E2. reflexivity.
Qed.

(** C10.  If [CalculateTunneling] throws, the five result members
    ([quantumSurvivalProbability], [quantumLifetimeInSeconds],
    [thermalSurvivalProbability], [partialThermalDecayWidth],
    [dominantTemperatureInGigaElectronVolts]) hold after the call what they
    held before it: they are reset only once the direction check has
    passed. *)
Theorem CalculateTunneling_throw_keeps_results fv tv t what :
  outcome (CalculateTunneling fv tv t) = Threw what ->
  let t' := members (CalculateTunneling fv tv t) in
  quantumSurvivalProbability t' = quantumSurvivalProbability t
  /\ quantumLifetimeInSeconds t' = quantumLifetimeInSeconds t
  /\ thermalSurvivalProbability t' = thermalSurvivalProbability t
  /\ partialThermalDecayWidth t' = partialThermalDecayWidth t
  /\ dominantTemperatureInGigaElectronVolts t'
     = dominantTemperatureInGigaElectronVolts t.
Proof.
  intros Hthrow.
  destruct (potentialFunction (FieldConfiguration tv) 0.0
            <? potentialFunction (FieldConfiguration fv) 0.0) eqn:Hlt.
  - rewrite (CalculateTunneling_deeper_returns _ _ _ Hlt) in Hthrow.
    discriminate.
  - unfold CalculateTunneling. rewrite Hlt. cbn. auto.
Qed.

(** C7.  Once the direction check has passed: under [QuantumThenThermal]
    the quantum calculation runs, and the thermal one is entered exactly when
    the quantum survival probability it left is strictly above the
    threshold; under [ThermalThenQuantum] the thermal calculation runs, and
    the quantum one is entered exactly when the thermal survival probability
    is strictly above the threshold. *)
Theorem conditional_second_calculation fv tv t :
  (potentialFunction (FieldConfiguration tv) 0.0
   <? potentialFunction (FieldConfiguration fv) 0.0) = true ->
  let start := PrepareCommonExtras (notCalculated t) in
  (tunnelingStrategy = QuantumThenThermal ->
   let afterQuantum := members (CalculateQuantumTunneling fv tv start) in
   happened (Entered Quantum) (events (CalculateTunneling fv tv t)) = true
   /\ happened (Entered Thermal) (events (CalculateTunneling fv tv t))
      = gtb (quantumSurvivalProbability afterQuantum)
            survivalProbabilityThreshold)
  /\
  (tunnelingStrategy = ThermalThenQuantum ->
   let afterThermal := members (CalculateThermalTunneling fv tv start) in
   happened (Entered Thermal) (events (CalculateTunneling fv tv t)) = true
   /\ happened (Entered Quantum) (events (CalculateTunneling fv tv t))
      = gtb (thermalSurvivalProbability afterThermal)
            survivalProbabilityThreshold).
Proof.
  intros Hlt start.
  rewrite (CalculateTunneling_deeper _ _ _ Hlt). cbv zeta. fold start.
  destruct (CalculateQuantumTunneling_returns fv tv start)
    as (tq & eq & EQ & HQt & HQq).
  destruct (CalculateThermalTunneling_returns fv tv start)
    as (tt' & et & ET & HTq & HTt).
  split; intros ->; unfold bind, get, ret; rewrite ?EQ, ?ET;
    cbn [members events fst snd].
  - destruct (gtb (quantumSurvivalProbability tq) _).
    + destruct (CalculateThermalTunneling_returns fv tv tq)
        as (t2 & e2 & E2 & _ & H2).
      rewrite E2. cbv [events members outcome fst snd]; cbn [app]; rewrite ?app_nil_r. rewrite ?happened_app, HQq, H2.
      rewrite orb_true_r. auto.
    + cbv [events members outcome fst snd]; cbn [app]; rewrite ?app_nil_r. rewrite ?happened_app, HQq, HQt. auto.
  - destruct (gtb (thermalSurvivalProbability tt') _).
    + destruct (CalculateQuantumTunneling_returns fv tv tt')
        as (t2 & e2 & E2 & _ & H2).
      rewrite E2. cbv [events members outcome fst snd]; cbn [app]; rewrite ?app_nil_r. rewrite ?happened_app, HTt, H2.
      rewrite orb_true_r. auto.
    + cbv [events members outcome fst snd]; cbn [app]; rewrite ?app_nil_r. rewrite ?happened_app, HTt, HTq. auto.
Qed.

(** C2.  With a positive exponent bound [log( 0.5 * DBL_MAX )]: an action at
    or above the bound gives a quantum survival probability of exactly [1]
    and a lifetime of [1.0E+100]; an action at or below minus the bound gives
    exactly [0]; in both cases the call returns (nothing is thrown), the
    probability is not a NaN and a warning was logged.  In
    [SetThermalSurvivalProbability] the same holds of
    [logOfMinusLogOfThermalProbability], with [0] at or above the bound and
    [1] at or below minus the bound. *)
Theorem saturation_at_exponent_bound fv tv t :
  (0 <? maximumPowerOfNaturalExponent) = true ->
  let S := BounceAction fv tv 0.0 in
  let q := CalculateQuantumTunneling fv tv t in
  let L := logOfMinusLogOfThermalProbability t in
  let th := SetThermalSurvivalProbability t in
  (geb S maximumPowerOfNaturalExponent = true ->
   outcome q = Returned tt
   /\ quantumSurvivalProbability (members q) = 1.0
   /\ quantumLifetimeInSeconds (members q) = 1.0E+100
   /\ isnan (quantumSurvivalProbability (members q)) = false
   /\ happened (LogWarning ActionLargePositiveLifetimeCapped) (events q)
      = true)
  /\
  ((S <=? - maximumPowerOfNaturalExponent) = true ->
   outcome q = Returned tt
   /\ quantumSurvivalProbability (members q) = 0.0
   /\ isnan (quantumSurvivalProbability (members q)) = false
   /\ happened (LogWarning ActionLargeNegativeLifetimeCapped) (events q)
      = true)
  /\
  (geb L maximumPowerOfNaturalExponent = true ->
   outcome th = Returned tt
   /\ thermalSurvivalProbability (members th) = 0.0
   /\ isnan (thermalSurvivalProbability (members th)) = false
   /\ happened (LogWarning ThermalActionLargePositive) (events th) = true)
  /\
  ((L <=? - maximumPowerOfNaturalExponent) = true ->
   outcome th = Returned tt
   /\ thermalSurvivalProbability (members th) = 1.0
   /\ isnan (thermalSurvivalProbability (members th)) = false
   /\ happened (LogWarning ThermalActionLargeNegative) (events th) = true).
Proof.
  intros Hpos S q L th. subst q th.
  unfold CalculateQuantumTunneling, SetThermalSurvivalProbability.
  rewrite !bind_get. fold S L.
  repeat split.
  all: try (rewrite (leb_opp_pos_not_geb _ _ Hpos) by assumption).
  all: match goal with Hc : _ = true |- _ => rewrite Hc end.
  all: reflexivity.
Qed.

End Properties.

(** ** A concrete instance

    One field [x] with the potential [x^2 (x - 1)]: the value is [0] at
    [x = 0] and negative at the minimum near [x = 2/3]. *)

Definition toyPotential : PotentialFunction := {|
  potentialFunction := fun fields _ =>
    match fields with
    | [x] => x * x * (x - 1)
    | _ => 0
    end;
  ScaleSquaredRelevantToTunneling := fun _ _ => 1;
  FieldValuesOrigin := [0];
  FieldConfigurationAsMathematica := fun _ => "{ x }"%string
|}.

Definition atZero : PotentialMinimum :=
  {| FieldConfiguration := [0]; FunctionValue := 0; FunctionError := 0 |}.
Definition atTwoThirds : PotentialMinimum :=
  {| FieldConfiguration := [0.666]; FunctionValue := -0.148;
     FunctionError := 0 |}.

Definition toyGeometry : MinimumGeometry := {|
  SquareDistanceTo := fun a b =>
    match FieldConfiguration a, FieldConfiguration b with
    | [x], [y] => (x - y) * (x - y)
    | _, _ => 0
    end;
  LengthSquared := fun a =>
    match FieldConfiguration a with [x] => x * x | _ => 0 end
|}.

(** A stand-in for the C library: [log] at [0.5 * DBL_MAX] is the one value
    the saturation tests need. *)
Definition toyLibm : Libm := {|
  exp := fun x => x;
  log := fun _ => 709.0895657128241;
  pow := fun x _ => x
|}.

(** A derived class whose solver returns the fixed action [action]. *)
Definition fixedAction (action : float) : DerivedTunneler := {|
  PrepareCommonExtras := fun t => t;
  BounceAction := fun _ _ _ => action;
  SetUpMaximumTemperatureRanges := fun _ _ _ t => t;
  ContinueThermalTunneling := fun _ _ _ t =>
    set_thermalSurvivalProbability 0.5 t
|}.

Definition settingsWith (s : TunnelingStrategy) : Settings := {|
  tunnelingStrategy := s;
  survivalProbabilityThreshold := 0.01;
  temperatureAccuracy := 7;
  vacuumSeparationFractionSquared := 0.04
|}.

Definition fresh : Tunneler := {|
  quantumSurvivalProbability := 0.25;
  quantumLifetimeInSeconds := 2;
  thermalSurvivalProbability := 0.75;
  partialThermalDecayWidth := 3;
  dominantTemperatureInGigaElectronVolts := 100;
  logOfMinusLogOfQuantumProbability := 0;
  logOfMinusLogOfThermalProbability := -1000
|}.

Lemma CalculateTunneling_not_deeper_throws_witness :
  events (CalculateTunneling (libm := toyLibm)
            (settings := settingsWith JustQuantum)
            (potential := toyPotential) (geometry := toyGeometry)
            (derived := fixedAction 50) atTwoThirds atZero fresh) = [].
Proof.
  apply (CalculateTunneling_not_deeper_throws
           (libm := toyLibm) (settings := settingsWith JustQuantum)
           (potential := toyPotential) (geometry := toyGeometry)
           (derived := fixedAction 50) atTwoThirds atZero fresh).
  reflexivity.
Defined.

Lemma CalculateTunneling_throw_keeps_results_witness :
  quantumSurvivalProbability
    (members (CalculateTunneling (libm := toyLibm)
                (settings := settingsWith ThermalThenQuantum)
                (potential := toyPotential) (geometry := toyGeometry)
                (derived := fixedAction 50) atTwoThirds atZero fresh))
  = 0.25.
Proof.
  refine (proj1 (CalculateTunneling_throw_keeps_results
           (libm := toyLibm) (settings := settingsWith ThermalThenQuantum)
           (potential := toyPotential) (geometry := toyGeometry)
           (derived := fixedAction 50) atTwoThirds atZero fresh
           (notDeeperMessage atTwoThirds atZero) _)).
  reflexivity.
Defined.

Lemma conditional_second_calculation_witness :
  happened (Entered Thermal)
    (events (CalculateTunneling (libm := toyLibm)
               (settings := settingsWith QuantumThenThermal)
               (potential := toyPotential) (geometry := toyGeometry)
               (derived := fixedAction 1000) atZero atTwoThirds fresh))
  = true.
Proof.
  pose proof (conditional_second_calculation
           (libm := toyLibm) (settings := settingsWith QuantumThenThermal)
           (potential := toyPotential) (geometry := toyGeometry)
           (derived := fixedAction 1000) atZero atTwoThirds fresh eq_refl)
    as [Hqt _].
  destruct (Hqt eq_refl) as [_ Hthermal].
  rewrite Hthermal. reflexivity.
Defined.

Lemma saturation_at_exponent_bound_witness :
  quantumSurvivalProbability
    (members (CalculateQuantumTunneling (libm := toyLibm)
                (potential := toyPotential) (derived := fixedAction 1000)
                atZero atTwoThirds fresh)) = 1.0
  /\ thermalSurvivalProbability
       (members (SetThermalSurvivalProbability (libm := toyLibm) fresh))
     = 1.0.
Proof.
  pose proof (saturation_at_exponent_bound
                (libm := toyLibm) (potential := toyPotential)
                (derived := fixedAction 1000) atZero atTwoThirds fresh
                eq_refl) as (Hq & _ & _ & Ht).
  split; [apply Hq | apply Ht]; reflexivity.
Defined.

End BounceActionTunnelerSpec.

(* ===================================================================== *)
(** * Temperature range: the narrowing loop *)
(* ===================================================================== *)

Module TemperatureRangeSpec.

Import Double BounceActionTunneler TemperatureRange.
Open Scope float_scope.

Section Search.

Context {libm : Libm}.
Variable BelowCriticalTemperature : float -> bool.
Variable temperatureAccuracy : nat.

Local Abbreviation Below := BelowCriticalTemperature.
Local Abbreviation step := (narrowingStep BelowCriticalTemperature).









End Search.

(** ** Concrete searches *)

(** A C library for the searches below.  The search calls [pow] with the
    exponent [0.25] only, where two square roots give the fourth root; the
    calls below are [pow( 1, 0.25 )], which is [1].  [exp] and [log] are
    not called. *)
Definition fourthRoot : Libm := {|
  exp := fun x => x;
  log := fun x => x;
  pow := fun base exponent => PrimFloat.sqrt (PrimFloat.sqrt base)
|}.

(** The vacuum persists below 3 GeV. *)
Definition belowThree (temperature : float) : bool := temperature <? 3.

(** The vacuum persists at no temperature above zero. *)
Definition onlyAtZero (temperature : float) : bool := temperature =? 0.



(** The halving loop underflows: with a vacuum that persists only at zero
    temperature the guess is halved from [0.5] down to [0], where the test
    holds, and the bracket is [(0, 0)]: both ends are a temperature below
    the critical one. *)
Lemma halving_underflows_to_zero :
  SetMaximumTunnelingTemperatureRange (libm := fourthRoot) onlyAtZero 2 1100
                                      5 0
  = Some (Bracketed (0, 0) [0; 0])
  /\ onlyAtZero 0 = true.
Proof. vm_compute. split; reflexivity. Qed.

End TemperatureRangeSpec.

(* ===================================================================== *)
(** * The width of the bracket *)
(* ===================================================================== *)

Module TemperatureRangeWidth.

Import TemperatureRange TemperatureRangeSpec.
Import Reals Lra.
Open Scope R_scope.




End TemperatureRangeWidth.

(* ===================================================================== *)
(** * Node ordering: the constructor of NodesOnBisectingPlanes *)
(* ===================================================================== *)

Module NodesOnBisectingPlanesSpec.

Import NodesOnBisectingPlanes.
Open Scope N_scope.

(** ** Arithmetic modulo [2^64] where nothing wraps *)

Lemma wrap_small x : x < 2 ^ 64 -> wrap x = x.
Proof. intros Hx. unfold wrap. apply N.mod_small, Hx. Qed.

Lemma add_small a b : a + b < 2 ^ 64 -> add a b = a + b.
Proof. intros Hab. unfold add. apply wrap_small, Hab. Qed.

Lemma mul_small a b : a * b < 2 ^ 64 -> mul a b = a * b.
Proof. intros Hab. unfold mul. apply wrap_small, Hab. Qed.

Lemma sub_small a b : b <= a -> a < 2 ^ 64 -> sub a b = a - b.
Proof.
  intros Hba Ha. unfold sub. rewrite (wrap_small b) by lia. unfold wrap.
  replace (a + 2 ^ 64 - b) with ((a - b) + 1 * 2 ^ 64) by lia.
  rewrite N.Div0.mod_add. apply N.mod_small. lia.
Qed.

Lemma pow2_le_mono a b : a <= b -> 2 ^ a <= 2 ^ b.
Proof. intros Hab. apply N.pow_le_mono_r; lia. Qed.

Lemma pow2_pos a : 0 < 2 ^ a.
Proof. apply N.neq_0_lt_0, N.pow_nonzero. lia. Qed.

Lemma pow2_le_63 a : a <= 63 -> 2 ^ a <= 2 ^ 63.
Proof. apply pow2_le_mono. Qed.

(** ** The doubling loop *)

(** Once the doubled count has wrapped to zero the loop never ends. *)
Lemma doubleUntilAbove_zero fuel requested numberOfSplits :
  doubleUntilAbove fuel requested 0 numberOfSplits = None.
Proof.
  revert numberOfSplits.
  induction fuel as [|fuel IH]; intros s; cbn [doubleUntilAbove]; [easy|].
  rewrite (proj2 (N.leb_le 0 requested)) by lia.
  change (mul 0 2) with 0. apply IH.
Qed.

Lemma doubleUntilAbove_result fuel requested s doubled k :
  s <= 63 ->
  doubleUntilAbove fuel requested (2 ^ s) s = Some (doubled, k) ->
  doubled = 2 ^ k /\ s <= k <= 63 /\ requested < 2 ^ k
  /\ (s < k -> 2 ^ (k - 1) <= requested).
Proof.
  revert s.
  induction fuel as [|fuel IH]; intros s Hs; cbn [doubleUntilAbove]; [easy|].
  destruct (N.leb_spec (2 ^ s) requested) as [Hle|Hgt].
  - destruct (N.eq_dec s 63) as [->|Hne].
    + change (mul (2 ^ 63) 2) with 0. rewrite doubleUntilAbove_zero. easy.
    + assert (Hs' : s + 1 <= 63) by lia.
      pose proof (pow2_le_63 _ Hs') as Hp.
      rewrite N.pow_add_r in Hp. change (2 ^ 1) with 2 in Hp.
      rewrite mul_small, add_small by (change (2 ^ 64) with (2 * 2 ^ 63); lia).
      replace (2 ^ s * 2) with (2 ^ (s + 1))
        by (rewrite N.pow_add_r; reflexivity).
      intros Hrun. apply IH in Hrun as (Hd & Hk & Hreq & Hprev); [|lia].
      repeat split; try lia.
      intros _. destruct (N.eq_dec (s + 1) k) as [<-|Hne'].
      * replace (s + 1 - 1) with s by lia. exact Hle.
      * apply Hprev. lia.
  - intros [= <- <-]. repeat split; try lia.
Qed.

Lemma doubleUntilAbove_ends fuel requested s :
  requested < 2 ^ 63 -> s <= 63 -> (64 - N.to_nat s <= fuel)%nat ->
  exists k, doubleUntilAbove fuel requested (2 ^ s) s = Some (2 ^ k, k).
Proof.
  intros Hreq. revert s.
  induction fuel as [|fuel IH]; intros s Hs Hfuel; [lia|].
  cbn [doubleUntilAbove].
  destruct (N.leb_spec (2 ^ s) requested) as [Hle|Hgt]; [|eauto].
  assert (Hs' : s < 63).
  { apply N.lt_nge. intros Hge.
    pose proof (pow2_le_mono 63 s Hge). lia. }
  assert (Hs'' : s + 1 <= 63) by lia.
  pose proof (pow2_le_63 _ Hs'') as Hp.
  rewrite N.pow_add_r in Hp. change (2 ^ 1) with 2 in Hp.
  rewrite mul_small, add_small by (change (2 ^ 64) with (2 * 2 ^ 63); lia).
  replace (2 ^ s * 2) with (2 ^ (s + 1))
    by (rewrite N.pow_add_r; reflexivity).
  apply IH; lia.
Qed.


(** ** The constructor *)

(** The plan after [levels] passes of the outer loop, for [2^k - 1] nodes. *)
Definition planAfter (k : N) (levels : nat)
  : N * N * (list N * list (N * N)) :=
  Nat.iter levels splitOnce
           (2 ^ k, 1, ([], replicate (N.to_nat (2 ^ k + 1)) (0, 0))).

Lemma construct_Some fuel unset base nf requested p :
  construct fuel unset base nf requested = Some p ->
  exists k,
    k <= 63 /\ requested < 2 ^ k /\ (0 < k -> 2 ^ (k - 1) <= requested)
    /\ numberOfIntermediateNodes p = 2 ^ k - 1
    /\ (adjustmentOrder p, sideNodeIndices p)
       = snd (planAfter k (N.to_nat k)).
Proof.
  unfold construct.
  destruct (doubleUntilAbove fuel requested 1 0) as [[d k]|] eqn:Hrun;
    [|easy].
  apply (doubleUntilAbove_result fuel requested 0) in Hrun
    as (-> & Hk & Hreq & Hprev); [|lia].
  pose proof (pow2_le_63 k (proj2 Hk)) as Hp. pose proof (pow2_pos k) as Hpos.
  assert (H64 : 2 ^ 64 = 2 * 2 ^ 63) by reflexivity.
  rewrite (sub_small (2 ^ k) 1) by lia.
  rewrite (add_small (2 ^ k - 1) 2) by lia.
  replace (2 ^ k - 1 + 2) with (2 ^ k + 1) by lia.
  rewrite (sub_small (2 ^ k + 1) 1) by lia.
  replace (2 ^ k + 1 - 1) with (2 ^ k) by lia.
  fold (planAfter k (N.to_nat k)).
  destruct (planAfter k (N.to_nat k)) as [[seg segs] [order sides]] eqn:Hplan.
  intros [= <-]. exists k. rewrite Hplan.
  cbn [numberOfIntermediateNodes adjustmentOrder sideNodeIndices snd].
  split; [lia|]. split; [exact Hreq|]. split; [exact Hprev|]. split; reflexivity.
Qed.

(** Wherever the constructor returns, the request was below [2^63] and
    [numberOfIntermediateNodes] is [2^k - 1] for the [k] that makes it the
    smallest number of this form that is at least the request. *)
Lemma construct_node_count_when_returned fuel unset base nf requested p :
  construct fuel unset base nf requested = Some p ->
  requested < 2 ^ 63
  /\ exists k,
      numberOfIntermediateNodes p = 2 ^ k - 1
      /\ requested <= 2 ^ k - 1
      /\ forall j, requested <= 2 ^ j - 1 -> 2 ^ k - 1 <= 2 ^ j - 1.
Proof.
  intros Hp.
  destruct (construct_Some _ _ _ _ _ _ Hp) as (k & Hk & Hlt & Hprev & HN & _).
  pose proof (pow2_le_63 k Hk) as H63.
  split; [lia|]. exists k. split; [exact HN|]. split; [lia|].
  intros j Hj. destruct (N.eq_dec k 0) as [->|Hk0].
  - change (2 ^ 0) with 1. lia.
  - assert (Hkpos : 0 < k) by lia. specialize (Hprev Hkpos).
    pose proof (pow2_pos j) as Hjpos.
    assert (Hkj : k <= j).
    { apply N.le_ngt. intros Hjk.
      pose proof (pow2_le_mono j (k - 1)). lia. }
    pose proof (pow2_le_mono k j Hkj). lia.
Qed.

(** The requests listed in the specification. *)
Example construct_node_count_listed :
  map (fun requested =>
         option_map numberOfIntermediateNodes
                    (construct 64 nan [] 2 requested))
      [1; 2; 3; 4; 5; 8; 9; 16]
  = map Some [1; 3; 3; 7; 7; 15; 15; 31].
Proof. vm_compute. reflexivity. Qed.



(** C6, as amended.  For a request of no intermediate node the constructor
    throws nothing of its own: it returns an object with
    [numberOfIntermediateNodes = 0], an empty [adjustmentOrder] and the
    two-entry [sideNodeIndices] of the ends of the path. *)
Theorem construct_zero_request fuel unset base nf :
  exists p,
    construct (S fuel) unset base nf 0 = Some p
    /\ numberOfIntermediateNodes p = 0
    /\ adjustmentOrder p = []
    /\ sideNodeIndices p = [(0, 0); (0, 0)].
Proof. eexists. split; [reflexivity|]. cbn. auto. Qed.

(** C6, as stated, fails: for a request of no node the constructor returns
    an object. *)
Lemma construct_zero_request_returns :
  option_map (fun p => (numberOfIntermediateNodes p, adjustmentOrder p))
             (construct 1 nan [] 2 0)
  = Some (0, []).
Proof. reflexivity. Qed.

(** ** The order of adjustment *)

(** [Valid T order sides]: every scheduled index has, in [sides], a pair of
    side indices at equal distance on either side, each an end of the path
    ([0] or [T]) or an index scheduled before it. *)
Definition Valid (T : N) (order : list N) (sides : list (N * N)) : Prop :=
  forall (pos : nat) (i : N),
    order !! pos = Some i ->
    exists a b,
      sides !! N.to_nat i = Some (a, b)
      /\ a < i < b /\ i - a = b - i
      /\ (a = 0 \/ a ∈ take pos order)
      /\ (b = T \/ b ∈ take pos order).

Section OneSplit.

(** One pass of the outer loop: [T = 2 * segmentSize * newSegmentsInSplit]
    is the index of the last node of the path. *)
Variables T segmentSize newSegmentsInSplit : N.
Hypothesis segment_pos : 0 < segmentSize.
Hypothesis segments_fill : 2 * segmentSize * newSegmentsInSplit = T.
Hypothesis T_small : T <= 2 ^ 63.

(** The invariant of the inner loop before the pass for [whichSegment]. *)
Definition Scheduled (whichSegment : N) (plan : list N * list (N * N))
  : Prop :=
  length (snd plan) = N.to_nat (T + 1)
  /\ (forall m, m ∈ fst plan <->
                0 < m < T
                /\ ((2 * segmentSize | m)
                    \/ exists w, w < whichSegment
                                 /\ m = segmentSize * (1 + 2 * w)))
  /\ Valid T (fst plan) (snd plan).

Lemma currentIndex_exact w :
  w < newSegmentsInSplit ->
  mul segmentSize (add 1 (mul 2 w)) = segmentSize * (1 + 2 * w)
  /\ segmentSize * (1 + 2 * w) + segmentSize <= T.
Proof.
  intros Hw.
  assert (Hb : segmentSize * (1 + 2 * w) + segmentSize <= T) by nia.
  assert (H64 : 2 ^ 64 = 2 * 2 ^ 63) by reflexivity.
  assert (H2w : 2 * w < 2 ^ 63) by nia.
  rewrite (mul_small 2 w) by lia.
  rewrite (add_small 1 (2 * w)) by lia.
  rewrite mul_small by lia. auto.
Qed.

Lemma not_both_parities w q :
  segmentSize * (1 + 2 * w) <> q * (2 * segmentSize).
Proof.
  intros Heq. replace (q * (2 * segmentSize)) with (segmentSize * (2 * q))
    in Heq by lia.
  apply N.mul_cancel_l in Heq; lia.
Qed.

Lemma scheduleNode_Scheduled w plan :
  w < newSegmentsInSplit ->
  Scheduled w plan -> Scheduled (w + 1) (scheduleNode segmentSize w plan).
Proof.
  intros Hw (Hlen & Hmem & Hvalid). destruct plan as [order sides].
  cbn [fst snd] in *. unfold scheduleNode. cbn [fst snd].
  destruct (currentIndex_exact w Hw) as [-> Hb].
  set (i := segmentSize * (1 + 2 * w)) in *.
  assert (H64 : 2 ^ 64 = 2 * 2 ^ 63) by reflexivity.
  assert (Hi : 0 < i) by (subst i; nia).
  rewrite sub_small, add_small by lia.
  assert (Hfresh : i ∉ order).
  { intros Hin. apply Hmem in Hin as (_ & [[q Hq]|(w' & Hw' & Heq)]).
    - exact (not_both_parities w q Hq).
    - subst i. nia. }
  unfold Scheduled. cbn [fst snd]. split; [|split].
  - rewrite length_insert. exact Hlen.
  - intros m. rewrite elem_of_app, list_elem_of_singleton, Hmem. split.
    + intros [(Hm & [Hdiv|(w' & Hw' & Heq)])| ->].
      * auto.
      * split; [exact Hm|]. right. exists w'. split; [lia|exact Heq].
      * split; [lia|]. right. exists w. split; [lia|reflexivity].
    + intros (Hm & [Hdiv|(w' & Hw' & Heq)]).
      * left. auto.
      * destruct (N.eq_dec w' w) as [->|Hne].
        -- right. exact Heq.
        -- left. split; [exact Hm|]. right. exists w'. split; [lia|exact Heq].
  - intros pos j Hpos.
    destruct (lookup_app_Some order [i] pos j) as [Hcases _].
    destruct (Hcases Hpos) as [Hold|[Hge Hnew]].
    + destruct (Hvalid pos j Hold) as (a & b & Hab & Hord & Hsym & Ha & Hb').
      assert (Hj : j ∈ order) by (eapply list_elem_of_lookup_2; eauto).
      assert (Hpos' : (pos < length order)%nat)
        by (eapply lookup_lt_Some; eauto).
      exists a, b. rewrite list_lookup_insert_ne
        by (intros Heq; apply N2Nat.inj in Heq; subst; contradiction).
      rewrite take_app_le by lia. auto.
    + assert (Hpos' : pos = length order).
      { apply lookup_lt_Some in Hnew. cbn in Hnew. lia. }
      subst pos. rewrite Nat.sub_diag in Hnew. cbn in Hnew.
      injection Hnew as <-.
      exists (i - segmentSize), (i + segmentSize).
      rewrite list_lookup_insert_eq by lia.
      rewrite take_app_le, firstn_all by lia.
      split; [reflexivity|]. split; [lia|]. split; [lia|]. split.
      * destruct (N.eq_dec w 0) as [->|Hw0].
        -- left. subst i. lia.
        -- right. apply Hmem. split; [lia|]. left. exists w. subst i. lia.
      * destruct (N.eq_dec (w + 1) newSegmentsInSplit) as [Hlast|Hmore].
        -- left. subst i. nia.
        -- right. apply Hmem. split; [subst i; nia|]. left. exists (w + 1).
           subst i. lia.
Qed.

Lemma segments_le_T : newSegmentsInSplit <= T.
Proof. nia. Qed.

Lemma forCount_Scheduled count w plan :
  w + N.of_nat count = newSegmentsInSplit ->
  Scheduled w plan ->
  Scheduled newSegmentsInSplit
            (forCount count w (scheduleNode segmentSize) plan).
Proof.
  revert w plan.
  induction count as [|count IH]; intros w plan Hcount Hplan;
    cbn [forCount].
  - replace newSegmentsInSplit with w by lia. exact Hplan.
  - pose proof segments_le_T as HS.
    assert (H64 : 2 ^ 64 = 2 * 2 ^ 63) by reflexivity.
    rewrite add_small by lia.
    apply IH; [lia|]. apply scheduleNode_Scheduled; [lia|exact Hplan].
Qed.

Lemma forRange_Scheduled plan :
  Scheduled 0 plan ->
  Scheduled newSegmentsInSplit
            (forRange 0 newSegmentsInSplit (scheduleNode segmentSize) plan).
Proof.
  intros Hplan. unfold forRange. apply forCount_Scheduled; [lia|exact Hplan].
Qed.

End OneSplit.

(** The invariant of the outer loop after [j] passes, for [2^k - 1] nodes:
    the indices scheduled so far are the multiples of [segmentSize] strictly
    between the ends of the path. *)
Definition Split (k j : N) (state : N * N * (list N * list (N * N)))
  : Prop :=
  exists order sides,
    state = (2 ^ (k - j), 2 ^ j, (order, sides))
    /\ length sides = N.to_nat (2 ^ k + 1)
    /\ (forall m, m ∈ order <-> 0 < m < 2 ^ k /\ (2 ^ (k - j) | m))
    /\ Valid (2 ^ k) order sides.

Lemma pow2_split k j : j < k -> 2 ^ (k - j) = 2 * 2 ^ (k - (j + 1)).
Proof.
  intros Hjk. replace (k - j) with (N.succ (k - (j + 1))) by lia.
  apply N.pow_succ_r'.
Qed.

Lemma pow2_fill k j : j <= k -> 2 ^ (k - j) * 2 ^ j = 2 ^ k.
Proof.
  intros Hjk. rewrite <- N.pow_add_r. f_equal. lia.
Qed.

Lemma splitOnce_Split k j state :
  k <= 63 -> j < k -> Split k j state -> Split k (j + 1) (splitOnce state).
Proof.
  intros Hk Hjk (order & sides & -> & Hlen & Hmem & Hvalid).
  pose proof (pow2_split k j Hjk) as Hhalf.
  pose proof (pow2_fill k j (N.lt_le_incl _ _ Hjk)) as Hfill.
  pose proof (pow2_pos (k - (j + 1))) as Hseg.
  pose proof (pow2_le_63 k Hk) as HT.
  set (seg := 2 ^ (k - (j + 1))) in *.
  unfold splitOnce. rewrite Hhalf.
  replace (2 * seg / 2) with seg
    by (rewrite N.mul_comm, N.div_mul; [reflexivity|lia]).
  assert (Hsegs : 2 * seg * 2 ^ j = 2 ^ k) by (rewrite <- Hhalf; exact Hfill).
  assert (H64 : 2 ^ 64 = 2 * 2 ^ 63) by reflexivity.
  assert (Hj1 : 2 ^ (j + 1) = 2 ^ j * 2)
    by (rewrite N.pow_add_r; reflexivity).
  rewrite mul_small by nia. rewrite <- Hj1.
  destruct (forRange_Scheduled (2 ^ k) seg (2 ^ j) Hseg Hsegs HT
              (order, sides)) as (Hlen' & Hmem' & Hvalid').
  { split; [exact Hlen|]. split; [|exact Hvalid]. cbn [fst].
    intros m. rewrite Hmem, Hhalf. split.
    - intros (Hm & Hdiv). auto.
    - intros (Hm & [Hdiv|(w & Hw & _)]); [auto|lia]. }
  destruct (forRange 0 (2 ^ j) (scheduleNode seg) (order, sides))
    as [order' sides']. cbn [fst snd] in *.
  exists order', sides'. split; [reflexivity|]. split; [exact Hlen'|].
  split; [|exact Hvalid'].
  intros m. rewrite Hmem'. split.
  - intros (Hm & [[q Hq]|(w & Hw & Heq)]); (split; [exact Hm|]).
    + exists (q * 2). lia.
    + exists (1 + 2 * w). lia.
  - intros (Hm & [q Hq]). split; [exact Hm|].
    destruct (N.Even_or_Odd q) as [[h Hh]|[h Hh]].
    + left. exists h. lia.
    + right. exists h. split; [nia|lia].
Qed.

Lemma planAfter_Split k levels :
  k <= 63 -> N.of_nat levels <= k ->
  Split k (N.of_nat levels) (planAfter k levels).
Proof.
  intros Hk. induction levels as [|levels IH]; intros Hlevels.
  - exists [], (replicate (N.to_nat (2 ^ k + 1)) (0, 0)).
    change (N.of_nat 0) with 0. rewrite N.sub_0_r.
    split; [reflexivity|]. split; [apply length_replicate|]. split.
    + intros m. split; [intros Hin; inversion Hin|].
      intros (Hm & [q Hq]). exfalso. destruct q; nia.
    + intros pos i Hpos. discriminate.
  - replace (N.of_nat (S levels)) with (N.of_nat levels + 1) by lia.
    change (planAfter k (S levels)) with (splitOnce (planAfter k levels)).
    apply splitOnce_Split; [exact Hk|lia|]. apply IH. lia.
Qed.

(** C5.  In every object the constructor returns, an index [i] of
    [adjustmentOrder] has in [sideNodeIndices] a pair [(i - s, i + s)] with
    [s > 0], whose first member is the false-vacuum end [0] or an index that
    comes earlier in [adjustmentOrder], and whose second member is the
    true-vacuum end [numberOfIntermediateNodes + 1] or an index that comes
    earlier: never an index that is yet to be scheduled. *)
Theorem side_nodes_scheduled_before fuel unset base nf requested p :
  construct fuel unset base nf requested = Some p ->
  forall (pos : nat) (i : N),
    adjustmentOrder p !! pos = Some i ->
    exists a b,
      sideNodeIndices p !! N.to_nat i = Some (a, b)
      /\ a < i < b /\ i - a = b - i
      /\ (a = 0 \/ a ∈ take pos (adjustmentOrder p))
      /\ (b = numberOfIntermediateNodes p + 1
          \/ b ∈ take pos (adjustmentOrder p)).
Proof.
  intros Hp.
  destruct (construct_Some _ _ _ _ _ _ Hp) as (k & Hk & _ & _ & HN & Hplan).
  destruct (planAfter_Split k (N.to_nat k) Hk) as
    (order & sides & Hstate & _ & _ & Hvalid); [lia|].
  rewrite Hstate in Hplan. cbn [snd] in Hplan. injection Hplan as -> ->.
  pose proof (pow2_pos k) as Hpos.
  replace (numberOfIntermediateNodes p + 1) with (2 ^ k) by lia.
  exact Hvalid.
Qed.

(** The object built for a request of seven nodes. *)
Definition sevenNodes : NodesOnBisectingPlanes :=
  Eval vm_compute in
    match construct 64 nan [] 2 7 with
    | Some p => p
    | None => Build_NodesOnBisectingPlanes 0 0 [] [] [] []
    end.

Lemma side_nodes_scheduled_before_witness :
  exists a b,
    sideNodeIndices sevenNodes !! 3%nat = Some (a, b)
    /\ a < 3 < b /\ 3 - a = b - 3
    /\ (a = 0 \/ a ∈ take 4 (adjustmentOrder sevenNodes))
    /\ (b = numberOfIntermediateNodes sevenNodes + 1
        \/ b ∈ take 4 (adjustmentOrder sevenNodes)).
Proof.
  exact (side_nodes_scheduled_before 64 nan [] 2 7 sevenNodes eq_refl
           4%nat 3 eq_refl).
Defined.

End NodesOnBisectingPlanesSpec.

(* ===================================================================== *)
(** * The rotation matrix and the retry loop *)
(* ===================================================================== *)

Module RotationMatrixSpec.

Import NodesOnBisectingPlanes.
Open Scope float_scope.

(** Two fields, [referenceField = 0], side nodes [(0, 0)] and [(3, 4)]. *)
Definition rotationFor_3_4 : Matrix :=
  UpdateRotationMatrix 2 0 [0; 0] [3; 4] (newMatrix nan 2 2).

(** Side nodes [(0, 1)] and [(3, 5)]: the same difference [(3, 4)]. *)
Definition rotationFor_3_4_shifted : Matrix :=
  UpdateRotationMatrix 2 0 [0; 1] [3; 5] (newMatrix nan 2 2).

(** C8.  The code at the side nodes [(0, 0)] and [(3, 4)], two fields,
    reference field [0]: the column beside the reference column has squared
    length above 80 and a dot product below -4.9 with the reference column,
    so the matrix is not orthonormal; and at the side nodes [(0, 1)] and
    [(3, 5)] the reference axis is sent to about [(0.447, 0.894)], not to the
    normalized difference [(0.6, 0.8)]. *)
Theorem UpdateRotationMatrix_is_not_a_rotation :
  (* the other column is far from unit length *)
  (80 <? columnDot 2 rotationFor_3_4 1 1) = true
  (* and far from orthogonal to the reference column *)
  /\ (columnDot 2 rotationFor_3_4 0 1 <? -4.9) = true
  (* the reference column is ( 2, 4 ) / sqrt( 20 ), not ( 3, 4 ) / 5 *)
  /\ (coeff rotationFor_3_4_shifted 0 0 <? 0.45) = true
  /\ (0.89 <? coeff rotationFor_3_4_shifted 1 0) = true.
Proof. vm_compute. auto. Qed.

End RotationMatrixSpec.

Module GradientFromStartingPointsSpec.

Import Double BounceActionTunneler GradientFromStartingPoints.
Open Scope float_scope.

Section Retry.

Variable gradientMinimizer : list float -> PotentialMinimum.

(** Every retry starts from the same scaled copy of the starting point: if
    the minimizer fails there, the loop has not ended after any number of
    evaluations of its condition. *)
Lemma retryWhileNaN_stuck fuel realSolution foundMinimum retries :
  minuitFailed foundMinimum = true ->
  minuitFailed (gradientMinimizer (scaledPoint realSolution)) = true ->
  retryWhileNaN gradientMinimizer fuel realSolution foundMinimum retries
  = None.
Proof.
  intros Hfirst Hscaled. revert foundMinimum retries Hfirst.
  induction fuel as [|fuel IH]; intros foundMinimum retries Hfirst;
    cbn [retryWhileNaN]; [reflexivity|].
  rewrite Hfirst. apply IH. exact Hscaled.
Qed.

(** When the loop ends, its body ran at most once. *)
Lemma rollFromStartingPoint_retries fuel realSolution foundMinimum retries :
  rollFromStartingPoint gradientMinimizer fuel realSolution
  = Some (foundMinimum, retries) ->
  (retries <= 1)%nat.
Proof.
  unfold rollFromStartingPoint.
  destruct fuel as [|fuel]; cbn [retryWhileNaN]; [easy|].
  destruct (minuitFailed (gradientMinimizer realSolution)) eqn:Hfirst;
    [|intros [= _ <-]; lia].
  destruct (minuitFailed (gradientMinimizer (scaledPoint realSolution)))
    eqn:Hscaled.
  - rewrite retryWhileNaN_stuck by assumption. easy.
  - destruct fuel as [|fuel]; cbn [retryWhileNaN]; [easy|].
    rewrite Hscaled. intros [= _ <-]. lia.
Qed.

End Retry.

(** A minimizer for which Minuit fails away from the origin. *)
Definition failsAwayFromOrigin (startingPoint : list float)
  : PotentialMinimum :=
  match startingPoint with
  | [x] => if (x =? 0) then
             {| FieldConfiguration := [x]; FunctionValue := 0;
                FunctionError := 0 |}
           else
             {| FieldConfiguration := [x]; FunctionValue := nan;
                FunctionError := 0 |}
  | _ => {| FieldConfiguration := startingPoint; FunctionValue := 0;
            FunctionError := 0 |}
  end.

(** C9.  The code on a starting point [(1)] with a minimizer that returns a
    NaN value at [(1)] and at [(0.8)]: whatever the number of evaluations of
    the loop condition allowed, the retry loop has not ended. *)
Theorem retry_loop_does_not_end (fuel : nat) :
  rollFromStartingPoint failsAwayFromOrigin fuel [1] = None.
Proof.
  unfold rollFromStartingPoint. apply retryWhileNaN_stuck; reflexivity.
Qed.

End GradientFromStartingPointsSpec.

(* ===================================================================== *)
(** * More on the tunneling calculation *)
(* ===================================================================== *)

Module BounceActionTunnelerMore.

Import Double BounceActionTunneler BounceActionTunnelerSpec.
Open Scope float_scope.

(** A threshold at or above zero is not strictly below zero. *)
Lemma nonnegative_not_below_zero (x : float) :
  (0 <=? x) = true -> gtb 0 x = false.
Proof.
  unfold gtb. rewrite leb_spec, ltb_spec.
  change (Prim2SF 0) with (S754_zero false).
  destruct (Prim2SF x) as [s|s| |s m e]; try destruct s; cbn;
    congruence.
Qed.

(** The members that only the thermal calculation writes. *)
Definition thermalMembers (t : Tunneler) : float * float * float * float :=
  (thermalSurvivalProbability t, partialThermalDecayWidth t,
   dominantTemperatureInGigaElectronVolts t,
   logOfMinusLogOfThermalProbability t).

(** [w] is among the warnings logged. *)
Definition warned (evs : list Event) : bool :=
  existsb (fun e => match e with LogWarning _ => true | _ => false end) evs.

Section More.

Context {libm : Libm} {settings : Settings} {potential : PotentialFunction}
        {geometry : MinimumGeometry} {derived : DerivedTunneler}.

Ltac run := cbv [bind ret emit modify get throw outcome members events
                 fst snd app].

Ltac branches :=
  repeat match goal with
         | |- context [if ?c then _ else _] => destruct c eqn:?
         end.

(** X1.  [CalculateQuantumTunneling] leaves the members of the thermal
    calculation ([thermalSurvivalProbability], [partialThermalDecayWidth],
    [dominantTemperatureInGigaElectronVolts],
    [logOfMinusLogOfThermalProbability]) as it found them. *)
Theorem quantum_leaves_thermal_members fv tv t :
  thermalMembers (members (CalculateQuantumTunneling fv tv t))
  = thermalMembers t.
Proof.
  unfold CalculateQuantumTunneling. run. branches; reflexivity.
Qed.

(** X2.  [CalculateQuantumTunneling] either logs a warning and leaves a
    survival probability of exactly [0] or [1], or logs none and leaves the
    lifetime [exp( S ) * hBar / ( pow( ageInv, 3 ) * pow( sqrt( scale ), 4 ) )]
    and the probability [exp( - age / lifetime )]. *)
Theorem quantum_warns_iff_saturated fv tv t :
  let r := CalculateQuantumTunneling fv tv t in
  let p := quantumSurvivalProbability (members r) in
  (warned (events r) = true /\ (p = 0.0 \/ p = 1.0))
  \/ (warned (events r) = false
      /\ quantumLifetimeInSeconds (members r)
         = (exp (BounceAction fv tv 0.0) * hBarInGigaElectronVoltSeconds)
           / (pow ageOfKnownUniverseInInverseGigaElectronVolts 3
              * pow (PrimFloat.sqrt (ScaleSquaredRelevantToTunneling fv tv))
                    4)
      /\ p = exp (- (ageOfKnownUniverseInSeconds
                     / quantumLifetimeInSeconds (members r)))).
Proof.
  unfold CalculateQuantumTunneling. run. branches; cbn; auto.
Qed.

(** X3.  Under [NoTunneling], once the direction check has passed, the call
    returns with the five result members at [-1.0], the two logarithms as
    they were, and nothing but the line on [std::cout]: no calculation, no
    [PrepareCommonExtras]. *)
Theorem no_tunneling_only_resets fv tv t :
  tunnelingStrategy = NoTunneling ->
  (potentialFunction (FieldConfiguration tv) 0.0
   <? potentialFunction (FieldConfiguration fv) 0.0) = true ->
  let r := CalculateTunneling fv tv t in
  outcome r = Returned tt
  /\ events r = [CoutNotTunneling]
  /\ quantumSurvivalProbability (members r) = -1.0
  /\ quantumLifetimeInSeconds (members r) = -1.0
  /\ thermalSurvivalProbability (members r) = -1.0
  /\ partialThermalDecayWidth (members r) = -1.0
  /\ dominantTemperatureInGigaElectronVolts (members r) = -1.0
  /\ logOfMinusLogOfQuantumProbability (members r)
     = logOfMinusLogOfQuantumProbability t
  /\ logOfMinusLogOfThermalProbability (members r)
     = logOfMinusLogOfThermalProbability t.
Proof.
  intros Hs Hlt. cbv zeta.
  rewrite (CalculateTunneling_deeper _ _ _ Hlt), Hs. cbn. repeat split.
Qed.

(** X4.  Once the direction check has passed, [JustQuantum] is the quantum
    calculation on the reset and prepared members and never enters the
    thermal one; [JustThermal] is the thermal calculation and never enters
    the quantum one. *)
Theorem single_strategy_runs_one_calculation fv tv t :
  (potentialFunction (FieldConfiguration tv) 0.0
   <? potentialFunction (FieldConfiguration fv) 0.0) = true ->
  let r := CalculateTunneling fv tv t in
  let start := PrepareCommonExtras (notCalculated t) in
  (tunnelingStrategy = JustQuantum ->
   r = CalculateQuantumTunneling fv tv start
   /\ happened (Entered Quantum) (events r) = true
   /\ happened (Entered Thermal) (events r) = false)
  /\ (tunnelingStrategy = JustThermal ->
      r = CalculateThermalTunneling fv tv start
      /\ happened (Entered Thermal) (events r) = true
      /\ happened (Entered Quantum) (events r) = false).
Proof.
  intros Hlt. cbv zeta. rewrite (CalculateTunneling_deeper _ _ _ Hlt).
  cbv zeta. split; intros ->.
  - destruct (CalculateQuantumTunneling_returns fv tv
                (PrepareCommonExtras (notCalculated t)))
      as (t1 & e1 & E & Hth & Hq).
    split; [reflexivity|]. rewrite E. cbn [events snd]. auto.
  - destruct (CalculateThermalTunneling_returns fv tv
                (PrepareCommonExtras (notCalculated t)))
      as (t1 & e1 & E & Hq & Hth).
    split; [reflexivity|]. rewrite E. cbn [events snd]. auto.
Qed.

(** X5.  Under [QuantumThenThermal], with a positive exponent bound: an
    action at or below minus the bound and a threshold at or above zero skip
    the thermal calculation and leave a quantum survival probability of [0];
    an action at or above the bound and a threshold below one enter it. *)
Theorem saturated_quantum_decides_thermal fv tv t :
  (0 <? maximumPowerOfNaturalExponent) = true ->
  tunnelingStrategy = QuantumThenThermal ->
  (potentialFunction (FieldConfiguration tv) 0.0
   <? potentialFunction (FieldConfiguration fv) 0.0) = true ->
  let r := CalculateTunneling fv tv t in
  ((BounceAction fv tv 0.0 <=? - maximumPowerOfNaturalExponent) = true ->
   (0 <=? survivalProbabilityThreshold) = true ->
   happened (Entered Thermal) (events r) = false
   /\ quantumSurvivalProbability (members r) = 0.0)
  /\ (geb (BounceAction fv tv 0.0) maximumPowerOfNaturalExponent = true ->
      (survivalProbabilityThreshold <? 1.0) = true ->
      happened (Entered Thermal) (events r) = true).
Proof.
  intros Hpos Hs Hlt. cbv zeta.
  rewrite (CalculateTunneling_deeper _ _ _ Hlt), Hs. cbv zeta.
  set (start := PrepareCommonExtras (notCalculated t)).
  split.
  - intros Hlow Hthr.
    assert (HQ : CalculateQuantumTunneling fv tv start
                 = (Returned tt,
                    set_quantumSurvivalProbability 0.0
                      (set_quantumLifetimeInSeconds 0.1
                         (set_logOfMinusLogOfQuantumProbability
                            (log ((ageOfKnownUniverseInSeconds
                                   * hBarInGigaElectronVoltSeconds)
                                  / PrimFloat.sqrt
                                      (ScaleSquaredRelevantToTunneling fv tv))
                             - 0.25 * BounceAction fv tv 0.0) start)),
                    [Entered Quantum;
                     LogWarning ActionLargeNegativeLifetimeCapped])).
    { unfold CalculateQuantumTunneling.
      rewrite (leb_opp_pos_not_geb _ _ Hpos Hlow), Hlow. reflexivity. }
    unfold bind, get, ret. rewrite HQ.
    cbn [quantumSurvivalProbability set_quantumSurvivalProbability].
    rewrite (nonnegative_not_below_zero _ Hthr). cbn. auto.
  - intros Hhigh Hthr.
    assert (HQ : exists t1,
               CalculateQuantumTunneling fv tv start
               = (Returned tt, t1,
                  [Entered Quantum;
                   LogWarning ActionLargePositiveLifetimeCapped])
               /\ quantumSurvivalProbability t1 = 1.0).
    { unfold CalculateQuantumTunneling. rewrite Hhigh.
      eexists. split; reflexivity. }
    destruct HQ as (t1 & HQ & Hone).
    unfold bind, get, ret. rewrite HQ, Hone.
    unfold gtb. rewrite Hthr.
    destruct (CalculateThermalTunneling_returns fv tv t1)
      as (t2 & e2 & E & _ & Hth).
    rewrite E. cbv [events snd]. cbn [app].
    unfold happened in *. cbn [existsb Event_eqb orb]. exact Hth.
Qed.

(** X6.  When the false vacuum lies above the origin's potential and has not
    rolled to the origin, [CalculateThermalTunneling] logs the warning, sets
    the thermal survival probability and the dominant temperature to [0],
    sets [logOfMinusLogOfThermalProbability] to [-exp( bound )], and leaves
    the other members alone: neither [SetUpMaximumTemperatureRanges] nor
    [ContinueThermalTunneling] has a part in the result. *)
Theorem thermal_refused_above_origin fv tv t :
  gtb (potentialFunction (FieldConfiguration fv) 0.0)
      (potentialFunction FieldValuesOrigin 0.0) = true ->
  (LengthSquared fv
   <? vacuumSeparationFractionSquared * SquareDistanceTo fv tv) = false ->
  let r := CalculateThermalTunneling fv tv t in
  outcome r = Returned tt
  /\ events r = [Entered Thermal; LogWarning DsbAboveOrigin]
  /\ thermalSurvivalProbability (members r) = 0.0
  /\ dominantTemperatureInGigaElectronVolts (members r) = 0.0
  /\ logOfMinusLogOfThermalProbability (members r)
     = - exp maximumPowerOfNaturalExponent
  /\ partialThermalDecayWidth (members r) = partialThermalDecayWidth t
  /\ quantumSurvivalProbability (members r) = quantumSurvivalProbability t
  /\ quantumLifetimeInSeconds (members r) = quantumLifetimeInSeconds t
  /\ logOfMinusLogOfQuantumProbability (members r)
     = logOfMinusLogOfQuantumProbability t.
Proof.
  intros Habove Hfar. cbv zeta. unfold CalculateThermalTunneling.
  rewrite Habove, Hfar. cbn. repeat split.
Qed.

(** X7.  [SetPartialThermalDecayWidth] and [SetThermalSurvivalProbability]
    take the same branch of the same test: the width is the argument exactly
    in the branch without warning (probability [exp( -exp( L ) )]), and the
    sentinel [-1], [0] or [1E100] in the branch of the first, second or
    third warning (probability [0], [1], [0]). *)
Theorem partial_width_follows_probability partialDecayWidth t :
  let p := SetThermalSurvivalProbability t in
  let w := partialThermalDecayWidth
             (members (SetPartialThermalDecayWidth partialDecayWidth t)) in
  (events p = [] /\ w = partialDecayWidth
   /\ thermalSurvivalProbability (members p)
      = exp (- exp (logOfMinusLogOfThermalProbability t)))
  \/ (events p = [LogWarning ThermalActionLargePositive]
      /\ w = -1.0 /\ thermalSurvivalProbability (members p) = 0.0)
  \/ (events p = [LogWarning ThermalActionLargeNegative]
      /\ w = 0.0 /\ thermalSurvivalProbability (members p) = 1.0)
  \/ (events p = [LogWarning IntegratedWidthTooLarge]
      /\ w = 1E100 /\ thermalSurvivalProbability (members p) = 0.0).
Proof.
  cbv zeta. unfold SetThermalSurvivalProbability, SetPartialThermalDecayWidth.
  rewrite !bind_get. branches; cbn; auto 10.
Qed.

End More.

(** ** The concrete instance again *)

(** The point [x = 1.2], where the toy potential is above its value at the
    origin. *)
Definition atOnePointTwo : PotentialMinimum :=
  {| FieldConfiguration := [1.2]; FunctionValue := 0.288;
     FunctionError := 0 |}.

Lemma no_tunneling_only_resets_witness :
  events (CalculateTunneling (libm := toyLibm)
            (settings := settingsWith NoTunneling)
            (potential := toyPotential) (geometry := toyGeometry)
            (derived := fixedAction 50) atZero atTwoThirds fresh)
  = [CoutNotTunneling].
Proof.
  exact (proj1 (proj2 (no_tunneling_only_resets
           (libm := toyLibm) (settings := settingsWith NoTunneling)
           (potential := toyPotential) (geometry := toyGeometry)
           (derived := fixedAction 50) atZero atTwoThirds fresh
           eq_refl eq_refl))).
Defined.

Lemma single_strategy_runs_one_calculation_witness :
  happened (Entered Thermal)
    (events (CalculateTunneling (libm := toyLibm)
               (settings := settingsWith JustQuantum)
               (potential := toyPotential) (geometry := toyGeometry)
               (derived := fixedAction 50) atZero atTwoThirds fresh))
  = false.
Proof.
  exact (proj2 (proj2 (proj1 (single_strategy_runs_one_calculation
           (libm := toyLibm) (settings := settingsWith JustQuantum)
           (potential := toyPotential) (geometry := toyGeometry)
           (derived := fixedAction 50) atZero atTwoThirds fresh eq_refl)
           eq_refl))).
Defined.

Lemma saturated_quantum_decides_thermal_witness :
  happened (Entered Thermal)
    (events (CalculateTunneling (libm := toyLibm)
               (settings := settingsWith QuantumThenThermal)
               (potential := toyPotential) (geometry := toyGeometry)
               (derived := fixedAction (-1000)) atZero atTwoThirds fresh))
  = false.
Proof.
  exact (proj1 (proj1 (saturated_quantum_decides_thermal
           (libm := toyLibm) (settings := settingsWith QuantumThenThermal)
           (potential := toyPotential) (geometry := toyGeometry)
           (derived := fixedAction (-1000)) atZero atTwoThirds fresh
           eq_refl eq_refl eq_refl) eq_refl eq_refl)).
Defined.

Lemma thermal_refused_above_origin_witness :
  thermalSurvivalProbability
    (members (CalculateThermalTunneling (libm := toyLibm)
                (settings := settingsWith JustThermal)
                (potential := toyPotential) (geometry := toyGeometry)
                (derived := fixedAction 50) atOnePointTwo atTwoThirds fresh))
  = 0.0.
Proof.
  exact (proj1 (proj2 (proj2 (thermal_refused_above_origin
           (libm := toyLibm) (settings := settingsWith JustThermal)
           (potential := toyPotential) (geometry := toyGeometry)
           (derived := fixedAction 50) atOnePointTwo atTwoThirds fresh
           eq_refl eq_refl)))).
Defined.

End BounceActionTunnelerMore.

(* ===================================================================== *)
(** * More on the temperature range *)
(* ===================================================================== *)

Module TemperatureRangeMore.

Import Double BounceActionTunneler TemperatureRange TemperatureRangeSpec.
Open Scope float_scope.

(** ** Doubling a positive [double] *)

Lemma bounded_inv m e :
  bounded prec emax m e = true ->
  (Zpos (digits2_pos m) <= 53 /\ -1074 <= e <= 971
   /\ (Zpos (digits2_pos m) < 53 -> e = -1074))%Z.
Proof.
  unfold bounded, canonical_mantissa, fexp, emin, prec, emax.
  intros H. apply andb_prop in H as [Hc He].
  apply Z.eqb_eq in Hc. apply Z.leb_le in He. lia.
Qed.

(** The sum of a positive finite [double] with itself: the exponent goes up
    by one, or to infinity at the largest exponent; a subnormal mantissa is
    doubled. *)
Lemma SFadd_self m e :
  bounded prec emax m e = true ->
  SF64add (S754_finite false m e) (S754_finite false m e)
  = if (Zpos (digits2_pos m) =? 53)%Z
    then if (e + 1 <=? 971)%Z then S754_finite false m (e + 1)
         else S754_infinity false
    else S754_finite false (m~0) e.
Proof.
  intros Hb. apply bounded_inv in Hb as (Hd & He & Hsub).
  unfold SF64add, SFadd. rewrite Z.min_id.
  unfold shl_align at 1 2. rewrite Z.sub_diag. cbn [fst cond_Zopp].
  change (Zpos m + Zpos m)%Z with (Zpos (m + m)). rewrite Pos.add_diag.
  unfold binary_normalize, binary_round.
  change (digits2_pos m~0) with (Pos.succ (digits2_pos m)).
  rewrite Pos2Z.inj_succ.
  set (d := Zpos (digits2_pos m)) in *.
  destruct (Z.eqb_spec d 53) as [Hd53|Hd53].
  - replace (fexp prec emax (Z.succ d + e)) with (e + 1)%Z
      by (unfold fexp, emin, prec, emax; lia).
    unfold shl_align. replace (e + 1 - e)%Z with 1%Z by lia.
    unfold binary_round_aux, shr_fexp.
    change (Zdigits2 (Zpos m~0)) with (Zpos (Pos.succ (digits2_pos m))).
    rewrite Pos2Z.inj_succ. fold d.
    replace (fexp prec emax (Z.succ d + e) - e)%Z with 1%Z
      by (unfold fexp, emin, prec, emax; lia).
    cbn [shr shr_record_of_loc SpecFloat.iter_pos shr_1 orb shr_m loc_of_shr_record
         round_nearest_even].
    change (Zdigits2 (Zpos m)) with d.
    replace (fexp prec emax (d + (e + 1)) - (e + 1))%Z with 0%Z
      by (unfold fexp, emin, prec, emax; lia).
    cbn [shr shr_m]. reflexivity.
  - assert (e = (-1074)%Z) by lia. subst e.
    replace (fexp prec emax (Z.succ d + -1074)) with (-1074)%Z
      by (unfold fexp, emin, prec, emax; lia).
    unfold shl_align. change (-1074 - -1074)%Z with 0%Z.
    unfold binary_round_aux, shr_fexp.
    change (Zdigits2 (Zpos m~0)) with (Zpos (Pos.succ (digits2_pos m))).
    rewrite Pos2Z.inj_succ. fold d.
    replace (fexp prec emax (Z.succ d + -1074) - -1074)%Z with 0%Z
      by (unfold fexp, emin, prec, emax; lia).
    cbn [shr shr_record_of_loc shr_m loc_of_shr_record round_nearest_even].
    change (Zdigits2 (Zpos m~0)) with (Zpos (Pos.succ (digits2_pos m))).
    rewrite Pos2Z.inj_succ. fold d.
    replace (fexp prec emax (Z.succ d + -1074) - -1074)%Z with 0%Z
      by (unfold fexp, emin, prec, emax; lia).
    cbn [shr shr_m]. reflexivity.
Qed.

(** A bound on the number of times a [double] can be doubled before the sum
    is infinite: the bits its mantissa lacks and the exponents above its
    own. *)
Definition doublingsLeft (x : float) : nat :=
  match Prim2SF x with
  | S754_finite _ m e =>
      Z.to_nat (1 + (53 - Zpos (digits2_pos m)) + (971 - e))
  | _ => O
  end.

Lemma positive_cases x :
  (0 <? x) = true ->
  Prim2SF x = S754_infinity false
  \/ exists m e, Prim2SF x = S754_finite false m e
                 /\ bounded prec emax m e = true.
Proof.
  rewrite ltb_spec. change (Prim2SF 0) with (S754_zero false).
  pose proof (Prim2SF_valid x) as Hvalid.
  destruct (Prim2SF x) as [s|[|]| |[|] m e]; cbn; try easy; eauto.
Qed.

Lemma infinity_at_or_above_cap x :
  Prim2SF x = S754_infinity false -> geb x maximumAllowedTemperature = true.
Proof.
  intros Hx. unfold geb. rewrite leb_spec, Hx.
  assert (Hcap : exists m e, Prim2SF maximumAllowedTemperature
                             = S754_finite false m e)
    by (vm_compute; eauto).
  destruct Hcap as (m & e & ->). reflexivity.
Qed.

Lemma doubling_progress x :
  (0 <? x) = true ->
  geb (x + x) maximumAllowedTemperature = true
  \/ ((0 <? x + x) = true /\ (doublingsLeft (x + x) < doublingsLeft x)%nat).
Proof.
  intros Hpos.
  destruct (positive_cases x Hpos) as [Hx|(m & e & Hx & Hb)].
  - left. apply infinity_at_or_above_cap. rewrite add_spec, Hx. reflexivity.
  - pose proof (SFadd_self m e Hb) as Hsum.
    assert (Hsum' : Prim2SF (x + x)
                    = SF64add (S754_finite false m e) (S754_finite false m e))
      by (rewrite add_spec, Hx; reflexivity).
    rewrite Hsum in Hsum'. clear Hsum.
    apply bounded_inv in Hb as (Hd & He & Hsub).
    destruct (Z.eqb_spec (Zpos (digits2_pos m)) 53) as [Hd53|Hd53].
    + destruct (Z.leb_spec (e + 1) 971) as [Hle|Hgt].
      * right. split.
        -- rewrite ltb_spec, Hsum'. reflexivity.
        -- unfold doublingsLeft. rewrite Hsum', Hx. lia.
      * left. apply infinity_at_or_above_cap, Hsum'.
    + right. split.
      * rewrite ltb_spec, Hsum'. reflexivity.
      * unfold doublingsLeft. rewrite Hsum', Hx.
        change (digits2_pos m~0) with (Pos.succ (digits2_pos m)).
        rewrite Pos2Z.inj_succ. lia.
Qed.

Section Search.

Context {libm : Libm}.
Variable BelowCriticalTemperature : float -> bool.
Variable temperatureAccuracy : nat.

Local Abbreviation Below := BelowCriticalTemperature.

Lemma raiseGuess_ends n :
  forall fuel guess,
    (0 <? guess) = true -> (doublingsLeft guess < n)%nat -> (n <= fuel)%nat ->
    raiseGuess Below fuel guess <> None.
Proof.
  induction n as [|n IH]; intros fuel guess Hpos Hleft Hfuel; [lia|].
  destruct fuel as [|fuel]; [lia|]. cbn [raiseGuess].
  destruct (Below guess); [|easy].
  destruct (doubling_progress guess Hpos) as [Hcap|[Hpos' Hless]].
  - rewrite Hcap. destruct (Below maximumAllowedTemperature); easy.
  - destruct (geb (guess + guess) maximumAllowedTemperature).
    + destruct (Below maximumAllowedTemperature); easy.
    + apply IH; [exact Hpos'|lia|lia].
Qed.

(** X10.  From a positive guess the doubling loop ends: whatever
    [BelowCriticalTemperature] answers, there is a number of evaluations of
    its condition within which it has ended. *)
Theorem doubling_loop_ends guess :
  (0 <? guess) = true ->
  exists n, forall fuel, (n < fuel)%nat ->
                         raiseGuess Below fuel guess <> None.
Proof.
  intros Hpos. exists (doublingsLeft guess). intros fuel Hfuel.
  apply (raiseGuess_ends (S (doublingsLeft guess))); [exact Hpos|lia|lia].
Qed.

Lemma raiseGuess_persists fuel guess :
  (forall temperature, Below temperature = true) ->
  raiseGuess Below fuel guess <> None ->
  raiseGuess Below fuel guess = Some PersistsToPlanck.
Proof.
  intros Hall. revert guess.
  induction fuel as [|fuel IH]; intros guess; cbn [raiseGuess]; [easy|].
  rewrite !Hall.
  destruct (geb (guess + guess) maximumAllowedTemperature);
    [reflexivity|apply IH].
Qed.

(** X11.  If [BelowCriticalTemperature] holds at every temperature and the
    first guess [pow( 0.2 * ( atOrigin - atVacuum ), 0.25 )] is above zero,
    the search returns, and what it returns is the cap at both ends. *)
Theorem persisting_vacuum_gives_the_cap atOrigin atVacuum :
  (forall temperature, Below temperature = true) ->
  (0 <? pow (0.2 * (atOrigin - atVacuum)) 0.25) = true ->
  exists n, forall fuel,
      (n < fuel)%nat ->
      SetMaximumTunnelingTemperatureRange Below temperatureAccuracy fuel
        atOrigin atVacuum
      = Some (AtPlanckTemperature
                (maximumAllowedTemperature, maximumAllowedTemperature)).
Proof.
  intros Hall Hpos. unfold SetMaximumTunnelingTemperatureRange.
  set (guess := pow (0.2 * (atOrigin - atVacuum)) 0.25) in *.
  exists (doublingsLeft guess). intros fuel Hfuel.
  rewrite (raiseGuess_persists _ _ Hall); [reflexivity|].
  apply (raiseGuess_ends (S (doublingsLeft guess))); [exact Hpos|lia|lia].
Qed.

Lemma lowerGuess_never fuel guess :
  (forall temperature, Below temperature = false) ->
  lowerGuess Below fuel guess = None.
Proof.
  intros Hnone. revert guess.
  induction fuel as [|fuel IH]; intros guess; cbn [lowerGuess]; [easy|].
  rewrite Hnone. cbn [negb]. apply IH.
Qed.

(** X12.  If [BelowCriticalTemperature] holds at no temperature, the search
    has not returned after any number of evaluations: the halving loop has
    no lower end. *)
Theorem vanished_vacuum_never_returns fuel atOrigin atVacuum :
  (forall temperature, Below temperature = false) ->
  SetMaximumTunnelingTemperatureRange Below temperatureAccuracy fuel
    atOrigin atVacuum = None.
Proof.
  intros Hnone. unfold SetMaximumTunnelingTemperatureRange.
  destruct (raiseGuess Below fuel _) as [[|found]|] eqn:Hraise;
    [|rewrite lowerGuess_never by exact Hnone; reflexivity|reflexivity].
  exfalso. revert Hraise.
  generalize (pow (0.2 * (atOrigin - atVacuum)) 0.25).
  induction fuel as [|fuel IH]; intros guess; cbn [raiseGuess]; [easy|].
  rewrite Hnone. easy.
Qed.

Lemma raiseGuess_unmoved fuel guess :
  Below guess = true -> guess + guess = guess ->
  geb guess maximumAllowedTemperature = false ->
  raiseGuess Below fuel guess = None.
Proof.
  intros Hbelow Hsame Hcap.
  induction fuel as [|fuel IH]; cbn [raiseGuess]; [reflexivity|].
  rewrite Hbelow, Hsame, Hcap. exact IH.
Qed.

(** X24.  A first guess that doubling leaves where it is (zero, or a NaN)
    and at which [BelowCriticalTemperature] holds: the doubling loop tries
    the same temperature again at every pass, and the search has not
    returned after any number of evaluations. *)
Theorem unmoved_guess_never_returns fuel atOrigin atVacuum :
  let guess := pow (0.2 * (atOrigin - atVacuum)) 0.25 in
  Below guess = true -> guess + guess = guess ->
  geb guess maximumAllowedTemperature = false ->
  SetMaximumTunnelingTemperatureRange Below temperatureAccuracy fuel
    atOrigin atVacuum = None.
Proof.
  intros guess Hbelow Hsame Hcap.
  unfold SetMaximumTunnelingTemperatureRange. fold guess.
  rewrite (raiseGuess_unmoved fuel guess Hbelow Hsame Hcap). reflexivity.
Qed.

End Search.

Lemma doubling_loop_ends_witness :
  exists n, forall fuel, (n < fuel)%nat -> raiseGuess belowThree fuel 1 <> None.
Proof. apply (doubling_loop_ends belowThree 1). reflexivity. Defined.

Lemma persisting_vacuum_gives_the_cap_witness :
  exists n, forall fuel,
      (n < fuel)%nat ->
      SetMaximumTunnelingTemperatureRange (libm := fourthRoot)
        (fun _ => true) 7 fuel 5 0
      = Some (AtPlanckTemperature
                (maximumAllowedTemperature, maximumAllowedTemperature)).
Proof.
  apply (persisting_vacuum_gives_the_cap (libm := fourthRoot)
           (fun _ => true) 7 5 0).
  - intros temperature. reflexivity.
  - reflexivity.
Defined.

Lemma vanished_vacuum_never_returns_witness :
  SetMaximumTunnelingTemperatureRange (libm := fourthRoot)
    (fun _ => false) 7 100 5 0 = None.
Proof.
  apply (vanished_vacuum_never_returns (libm := fourthRoot)
           (fun _ => false) 7 100 5 0).
  intros temperature. reflexivity.
Defined.

(** A vacuum at the potential of the origin: the first guess is
    [pow( 0, 0.25 ) = 0]. *)
Lemma unmoved_guess_never_returns_witness :
  SetMaximumTunnelingTemperatureRange (libm := fourthRoot)
    (fun _ => true) 7 100 3 3 = None.
Proof.
  apply (unmoved_guess_never_returns (libm := fourthRoot)
           (fun _ => true) 7 100 3 3); reflexivity.
Defined.

End TemperatureRangeMore.

(* ===================================================================== *)
(** * More on the order of adjustment *)
(* ===================================================================== *)

Module NodesOnBisectingPlanesMore.

Import NodesOnBisectingPlanes NodesOnBisectingPlanesSpec.
Open Scope N_scope.

Section OneSplit.

Variables T segmentSize newSegmentsInSplit : N.
Hypothesis segment_pos : 0 < segmentSize.
Hypothesis segments_fill : 2 * segmentSize * newSegmentsInSplit = T.
Hypothesis T_small : T <= 2 ^ 63.

Local Abbreviation Scheduled := (Scheduled T segmentSize).

(** The inner loop only appends, and what it appends is new. *)
Definition Counted (whichSegment : N) (old : list N)
    (plan : list N * list (N * N)) : Prop :=
  Scheduled whichSegment plan
  /\ NoDup (fst plan)
  /\ N.of_nat (length (fst plan)) + 1 = newSegmentsInSplit + whichSegment
  /\ exists new, fst plan = old ++ new.

Lemma scheduleNode_Counted w old plan :
  w < newSegmentsInSplit ->
  Counted w old plan ->
  Counted (w + 1) old (scheduleNode segmentSize w plan).
Proof.
  intros Hw (Hplan & Hnodup & Hlen & new & Hnew).
  split; [|split; [|split]].
  - apply (scheduleNode_Scheduled T segmentSize newSegmentsInSplit);
      assumption.
  - destruct Hplan as (_ & Hmem & _). destruct plan as [order sides].
    unfold scheduleNode. cbn [fst snd] in *.
    destruct (currentIndex_exact T segmentSize newSegmentsInSplit
                segment_pos segments_fill T_small w Hw) as [-> _].
    apply NoDup_app. split; [exact Hnodup|]. split; [|apply NoDup_singleton].
    intros m Hm Hm'. apply list_elem_of_singleton in Hm'. subst m.
    apply Hmem in Hm as (_ & [[q Hq]|(w' & Hw' & Heq)]).
    + exact (not_both_parities T segmentSize newSegmentsInSplit segment_pos
               segments_fill T_small w q Hq).
    + nia.
  - unfold scheduleNode. cbn [fst]. rewrite length_app. cbn [length]. lia.
  - unfold scheduleNode. cbn [fst]. rewrite Hnew.
    eexists. rewrite <- app_assoc. reflexivity.
Qed.

Lemma forCount_Counted count w old plan :
  w + N.of_nat count = newSegmentsInSplit ->
  Counted w old plan ->
  Counted newSegmentsInSplit old
          (forCount count w (scheduleNode segmentSize) plan).
Proof.
  revert w plan.
  induction count as [|count IH]; intros w plan Hcount Hplan;
    cbn [forCount].
  - replace newSegmentsInSplit with w by lia. exact Hplan.
  - pose proof (segments_le_T T segmentSize newSegmentsInSplit segment_pos
                  segments_fill T_small) as HS.
    assert (H64 : 2 ^ 64 = 2 * 2 ^ 63) by reflexivity.
    rewrite add_small by lia.
    apply IH; [lia|]. apply scheduleNode_Counted; [lia|exact Hplan].
Qed.

End OneSplit.

(** After [j] passes of the outer loop: [2^j - 1] distinct indices, the first
    [first] of which are those of the first pass. *)
Definition SplitCounted (k j : N) (old : list N)
    (state : N * N * (list N * list (N * N))) : Prop :=
  Split k j state
  /\ NoDup (fst (snd state))
  /\ N.of_nat (length (fst (snd state))) + 1 = 2 ^ j
  /\ exists new, fst (snd state) = old ++ new.

Lemma splitOnce_SplitCounted k j old state :
  k <= 63 -> j < k ->
  SplitCounted k j old state -> SplitCounted k (j + 1) old (splitOnce state).
Proof.
  intros Hk Hjk (Hsplit & Hnodup & Hlen & Hold).
  split; [apply splitOnce_Split; assumption|].
  destruct Hsplit as (order & sides & -> & Hsides & Hmem & Hvalid).
  cbn [fst snd] in *.
  pose proof (pow2_split k j Hjk) as Hhalf.
  pose proof (pow2_fill k j (N.lt_le_incl _ _ Hjk)) as Hfill.
  pose proof (pow2_pos (k - (j + 1))) as Hseg.
  pose proof (pow2_le_63 k Hk) as HT.
  set (seg := 2 ^ (k - (j + 1))) in *.
  unfold splitOnce. rewrite Hhalf.
  replace (2 * seg / 2) with seg
    by (rewrite N.mul_comm, N.div_mul; [reflexivity|lia]).
  assert (Hsegs : 2 * seg * 2 ^ j = 2 ^ k) by (rewrite <- Hhalf; exact Hfill).
  assert (Hj1 : 2 ^ (j + 1) = 2 ^ j * 2)
    by (rewrite N.pow_add_r; reflexivity).
  cbn [fst snd]. unfold forRange. rewrite N.sub_0_r.
  destruct (forCount_Counted (2 ^ k) seg (2 ^ j) Hseg Hsegs HT
              (N.to_nat (2 ^ j)) 0 old (order, sides))
    as (_ & Hnodup' & Hlen' & Hold'); [lia| |].
  { split; [|split; [exact Hnodup|split; [cbn [fst]; lia|exact Hold]]].
    split; [exact Hsides|]. split; [|exact Hvalid]. cbn [fst].
    intros m. rewrite Hmem, Hhalf. split.
    - intros (Hm & Hdiv). auto.
    - intros (Hm & [Hdiv|(w & Hw & _)]); [auto|lia]. }
  split; [exact Hnodup'|]. split; [lia|exact Hold'].
Qed.

Lemma planAfter_one k :
  0 < k -> k <= 63 -> fst (snd (planAfter k 1)) = [2 ^ (k - 1)].
Proof.
  intros Hpos Hk.
  change (planAfter k 1)
    with (splitOnce (2 ^ k, 1, ([], replicate (N.to_nat (2 ^ k + 1)) (0, 0)))).
  unfold splitOnce. cbn [fst snd]. unfold forRange.
  change (N.to_nat (1 - 0)) with 1%nat. cbn [forCount].
  unfold scheduleNode. cbn [fst app].
  change (mul 2 0) with 0. change (add 1 0) with 1.
  assert (Hhalf : 2 ^ k / 2 = 2 ^ (k - 1)).
  { replace (2 ^ k) with (2 ^ (k - 1) * 2)
      by (rewrite N.mul_comm, <- N.pow_succ_r'; f_equal; lia).
    apply N.div_mul. lia. }
  rewrite Hhalf.
  pose proof (pow2_le_63 (k - 1) ltac:(lia)) as Hp.
  rewrite mul_small by (change (2 ^ 64) with (2 * 2 ^ 63); lia).
  rewrite N.mul_1_r. reflexivity.
Qed.

Lemma planAfter_SplitCounted k levels :
  k <= 63 -> N.of_nat levels <= k ->
  SplitCounted k (N.of_nat levels)
               (if levels is O then [] else fst (snd (planAfter k 1)))
               (planAfter k levels).
Proof.
  intros Hk. induction levels as [|levels IH]; intros Hlevels.
  - split; [apply (planAfter_Split k 0 Hk); exact Hlevels|].
    cbn. split; [constructor|]. split; [reflexivity|]. exists []. reflexivity.
  - replace (N.of_nat (S levels)) with (N.of_nat levels + 1) by lia.
    change (planAfter k (S levels)) with (splitOnce (planAfter k levels)).
    destruct levels as [|levels].
    + destruct (splitOnce_SplitCounted k 0 [] (planAfter k 0) Hk)
        as (H1 & H2 & H3 & _); [lia|apply IH; lia|].
      split; [exact H1|]. split; [exact H2|]. split; [exact H3|].
      exists []. rewrite app_nil_r. reflexivity.
    + apply splitOnce_SplitCounted; [exact Hk|lia|apply IH; lia].
Qed.

(** X13.  In every object the constructor returns, [adjustmentOrder] holds
    each index from [1] to [numberOfIntermediateNodes] exactly once, and
    nothing else. *)
Theorem adjustmentOrder_schedules_each_node_once
    fuel unset base nf requested p :
  construct fuel unset base nf requested = Some p ->
  NoDup (adjustmentOrder p)
  /\ (forall m, m ∈ adjustmentOrder p
                <-> 1 <= m <= numberOfIntermediateNodes p)
  /\ N.of_nat (length (adjustmentOrder p)) = numberOfIntermediateNodes p.
Proof.
  intros Hp.
  destruct (construct_Some _ _ _ _ _ _ Hp) as (k & Hk & _ & _ & HN & Hplan).
  destruct (planAfter_SplitCounted k (N.to_nat k) Hk) as
    ((order & sides & Hstate & _ & Hmem & _) & Hnodup & Hlen & _); [lia|].
  rewrite Hstate in Hplan, Hnodup, Hlen. cbn [fst snd] in *.
  injection Hplan as Ho Hs. subst order sides.
  pose proof (pow2_pos k) as Hpos. rewrite N2Nat.id in Hlen.
  split; [exact Hnodup|]. split; [|lia].
  intros m. rewrite Hmem, N2Nat.id, N.sub_diag. change (2 ^ 0) with 1.
  split.
  - intros (Hm & _). lia.
  - intros Hm. split; [lia|]. apply N.divide_1_l.
Qed.

(** X14.  For a request of at least one node, the first index of
    [adjustmentOrder] is the middle of the path,
    [( numberOfIntermediateNodes + 1 ) / 2], and its side nodes are the two
    ends [0] and [numberOfIntermediateNodes + 1]. *)
Theorem middle_node_is_scheduled_first fuel unset base nf requested p :
  construct fuel unset base nf requested = Some p ->
  1 <= requested ->
  let middle := (numberOfIntermediateNodes p + 1) / 2 in
  adjustmentOrder p !! 0%nat = Some middle
  /\ sideNodeIndices p !! N.to_nat middle
     = Some (0, numberOfIntermediateNodes p + 1).
Proof.
  intros Hp Hreq.
  destruct (construct_Some _ _ _ _ _ _ Hp)
    as (k & Hk & Hlt & _ & HN & Hplan).
  assert (Hkpos : 0 < k).
  { apply N.neq_0_lt_0. intros ->. change (2 ^ 0) with 1 in Hlt. lia. }
  destruct (planAfter_SplitCounted k (N.to_nat k) Hk) as
    ((order & sides & Hstate & _ & _ & Hvalid) & _ & _ & new & Hnew); [lia|].
  rewrite Hstate in Hplan, Hnew. cbn [fst snd] in *.
  injection Hplan as Ho Hs. subst order sides.
  destruct (N.to_nat k) as [|levels] eqn:Hlevels; [lia|].
  rewrite planAfter_one in Hnew by assumption.
  pose proof (pow2_pos k) as Hpos.
  replace (numberOfIntermediateNodes p + 1) with (2 ^ k) by lia.
  assert (Hmid : 2 ^ k / 2 = 2 ^ (k - 1)).
  { replace (2 ^ k) with (2 ^ (k - 1) * 2)
      by (rewrite N.mul_comm, <- N.pow_succ_r'; f_equal; lia).
    apply N.div_mul. lia. }
  cbv zeta. rewrite Hmid.
  assert (Hfirst : adjustmentOrder p !! 0%nat = Some (2 ^ (k - 1)))
    by (rewrite Hnew; reflexivity).
  split; [exact Hfirst|].
  destruct (Hvalid 0%nat _ Hfirst) as (a & b & Hab & _ & _ & Ha & Hb).
  rewrite take_0 in Ha, Hb.
  destruct Ha as [->|Ha]; [|inversion Ha].
  destruct Hb as [->|Hb]; [|inversion Hb].
  exact Hab.
Qed.

(** X15.  In every object the constructor returns, [pathNodes],
    [sideNodeIndices] and [rotationMatrices] have
    [numberOfIntermediateNodes + 2] entries and every rotation matrix is
    [numberOfFields] by [numberOfFields]. *)
Theorem construct_sizes fuel unset base nf requested p :
  construct fuel unset base nf requested = Some p ->
  let size := N.to_nat (numberOfIntermediateNodes p + 2) in
  numberOfFields p = nf
  /\ length (pathNodes p) = size
  /\ length (sideNodeIndices p) = size
  /\ length (rotationMatrices p) = size
  /\ Forall (fun m => length m = N.to_nat nf
                      /\ Forall (fun row => length row = N.to_nat nf) m)
            (rotationMatrices p).
Proof.
  intros Hp.
  destruct (construct_Some _ _ _ _ _ _ Hp) as (k & Hk & _ & _ & HN & Hplan).
  destruct (planAfter_Split k (N.to_nat k) Hk) as
    (order & sides & Hstate & Hsides & _ & _); [lia|].
  rewrite Hstate in Hplan. cbn [snd] in Hplan. injection Hplan as _ Hs.
  pose proof (pow2_pos k) as Hpos. pose proof (pow2_le_63 k Hk) as HT.
  assert (H64 : 2 ^ 64 = 2 * 2 ^ 63) by reflexivity.
  cbv zeta. rewrite Hs, Hsides, HN.
  replace (2 ^ k - 1 + 2) with (2 ^ k + 1) by lia.
  revert Hp. unfold construct.
  destruct (doubleUntilAbove fuel requested 1 0) as [[d k']|] eqn:Hrun;
    [|easy].
  destruct (Nat.iter _ _ _) as [[? ?] [? ?]].
  intros [= <-]. cbn [numberOfFields pathNodes rotationMatrices
                      numberOfIntermediateNodes] in *.
  rewrite (add_small (sub d 1) 2) in * by (rewrite HN; lia).
  rewrite HN. replace (2 ^ k - 1 + 2) with (2 ^ k + 1) by lia.
  split; [reflexivity|]. split; [apply length_resize|].
  split; [reflexivity|]. split; [apply length_replicate|].
  apply Forall_replicate. unfold newMatrix. split.
  - apply length_replicate.
  - apply Forall_replicate, length_replicate.
Qed.

Lemma adjustmentOrder_schedules_each_node_once_witness :
  NoDup (adjustmentOrder sevenNodes)
  /\ (forall m, m ∈ adjustmentOrder sevenNodes
                <-> 1 <= m <= numberOfIntermediateNodes sevenNodes)
  /\ N.of_nat (length (adjustmentOrder sevenNodes))
     = numberOfIntermediateNodes sevenNodes.
Proof.
  exact (adjustmentOrder_schedules_each_node_once 64 nan [] 2 7 sevenNodes
           eq_refl).
Defined.

Lemma middle_node_is_scheduled_first_witness :
  adjustmentOrder sevenNodes !! 0%nat = Some 4
  /\ sideNodeIndices sevenNodes !! 4%nat = Some (0, 8).
Proof.
  refine (middle_node_is_scheduled_first 64 nan [] 2 7 sevenNodes eq_refl _).
  discriminate.
Defined.

Lemma construct_sizes_witness :
  numberOfFields sevenNodes = 2
  /\ length (pathNodes sevenNodes) = 9%nat
  /\ length (sideNodeIndices sevenNodes) = 9%nat
  /\ length (rotationMatrices sevenNodes) = 9%nat
  /\ Forall (fun m => length m = 2%nat
                      /\ Forall (fun row => length row = 2%nat) m)
            (rotationMatrices sevenNodes).
Proof.
  exact (construct_sizes 64 nan [] 2 7 sevenNodes eq_refl).
Defined.

End NodesOnBisectingPlanesMore.

(* ===================================================================== *)
(** * AddTransformedNode *)
(* ===================================================================== *)

Module AddTransformedNodeSpec.

Import NodesOnBisectingPlanes NodesOnBisectingPlanesSpec AddTransformedNode.
Open Scope N_scope.

(** A loop that writes [target] over [start], one coefficient per pass. *)
Lemma forCount_overwrites {A} (body : N -> list A -> list A)
    (target start : list A) (bound : N) :
  bound < 2 ^ 64 ->
  length target = N.to_nat bound -> length start = N.to_nat bound ->
  (forall i x, i < bound -> target !! N.to_nat i = Some x ->
     body i (take (N.to_nat i) target ++ drop (N.to_nat i) start)
     = take (N.to_nat i) target ++ x :: drop (S (N.to_nat i)) start) ->
  forall count i,
    i + N.of_nat count = bound ->
    forCount count i body (take (N.to_nat i) target ++ drop (N.to_nat i) start)
    = target.
Proof.
  intros Hbound Htarget Hstart Hbody.
  induction count as [|count IH]; intros i Hi; cbn [forCount].
  - replace (N.to_nat i) with (length target) by lia.
    rewrite firstn_all, drop_ge by lia. apply app_nil_r.
  - destruct (lookup_lt_is_Some_2 target (N.to_nat i)) as [x Hx]; [lia|].
    rewrite (Hbody i x) by (auto; lia).
    rewrite add_small by lia.
    replace (N.to_nat (i + 1)) with (S (N.to_nat i)) by lia.
    rewrite <- (IH (i + 1)) at 2 by lia.
    replace (N.to_nat (i + 1)) with (S (N.to_nat i)) by lia.
    rewrite (take_S_r _ _ _ Hx), <- app_assoc. reflexivity.
Qed.

Lemma at_lookup (v : list float) (i : N) x :
  v !! N.to_nat i = Some x -> at_ v i = x.
Proof. intros Hx. unfold at_. apply nth_lookup_Some with (d := nan), Hx. Qed.

(** X16.  For a reference field below [numberOfFields] and a
    parameterization of [numberOfFields - 1] numbers, the vector that
    [AddTransformedNode] rotates is the parameterization with a zero put in
    at the reference field; no coefficient is left unset. *)
Theorem nodeInPlane_inserts_zero unset nf ref (param : list float) :
  ref < nf -> nf < 2 ^ 64 -> S (length param) = N.to_nat nf ->
  nodeInPlane unset nf ref param
  = take (N.to_nat ref) param ++ 0%float :: drop (N.to_nat ref) param.
Proof.
  intros Href Hnf Hlen. unfold nodeInPlane, forRange. rewrite N.sub_0_r.
  set (target := take (N.to_nat ref) param ++ 0%float :: drop (N.to_nat ref) param).
  set (start := <[ N.to_nat ref := 0%float ]> (replicate (N.to_nat nf) unset)).
  assert (Htarget : length target = N.to_nat nf).
  { unfold target. rewrite length_app, length_take. cbn [length].
    rewrite length_drop. lia. }
  assert (Hstart : length start = N.to_nat nf).
  { unfold start. rewrite length_insert, length_replicate. reflexivity. }
  change start with (take (N.to_nat 0) target ++ drop (N.to_nat 0) start).
  apply forCount_overwrites with (bound := nf); auto; [|lia].
  intros i x Hi Hx.
  assert (Hlen' : length (take (N.to_nat i) target) = N.to_nat i)
    by (rewrite length_take; lia).
  destruct (lookup_lt_is_Some_2 start (N.to_nat i)) as [s Hs]; [lia|].
  rewrite (drop_S _ _ _ Hs).
  assert (Hinsert : forall y,
             <[ N.to_nat i := y ]> (take (N.to_nat i) target
                                    ++ s :: drop (S (N.to_nat i)) start)
             = take (N.to_nat i) target
               ++ y :: drop (S (N.to_nat i)) start).
  { intros y. rewrite insert_app_r_alt by lia.
    rewrite Hlen', Nat.sub_diag. reflexivity. }
  unfold target in Hx.
  destruct (N.ltb_spec i ref) as [Hlt|Hge].
  - rewrite Hinsert. do 2 f_equal. apply at_lookup.
    rewrite lookup_app_l in Hx by (rewrite length_take; lia).
    rewrite lookup_take_lt in Hx by lia. exact Hx.
  - destruct (N.ltb_spec ref i) as [Hgt|Hle].
    + rewrite Hinsert. do 2 f_equal. apply at_lookup.
      rewrite sub_small by lia.
      rewrite lookup_app_r in Hx by (rewrite length_take; lia).
      rewrite length_take in Hx.
      rewrite lookup_cons_ne_0, lookup_drop in Hx by lia.
      rewrite <- Hx. f_equal. lia.
    + assert (i = ref) by lia. subst i.
      rewrite lookup_app_r in Hx by (rewrite length_take; lia).
      rewrite length_take in Hx.
      replace (N.to_nat ref - N.to_nat ref `min` length param)%nat
        with 0%nat in Hx by lia.
      injection Hx as <-.
      unfold start in Hs. rewrite list_lookup_insert_eq in Hs
        by (rewrite length_replicate; lia).
      injection Hs as <-. reflexivity.
Qed.

(** X17.  On a node of [numberOfFields] fields, [AddTransformedNode] adds to
    each field of [nodeVector] the same field of the rotated vector. *)
Theorem AddTransformedNode_adds_componentwise
    product unset nf ref rotationMatrices (nodeVector : list float)
    nodeIndex param :
  nf < 2 ^ 64 -> length nodeVector = N.to_nat nf ->
  let rotatedNode :=
    product (nth (N.to_nat nodeIndex) rotationMatrices [])
            (nodeInPlane unset nf ref param) in
  AddTransformedNode product unset nf ref rotationMatrices nodeVector
                     nodeIndex param
  = imap (fun fieldIndex x =>
            (x + at_ rotatedNode (N.of_nat fieldIndex))%float) nodeVector.
Proof.
  intros Hnf Hlen. cbv zeta. unfold AddTransformedNode, forRange.
  rewrite N.sub_0_r.
  set (rotatedNode := product _ _).
  set (target := imap _ nodeVector).
  assert (Htarget : length target = N.to_nat nf)
    by (unfold target; rewrite length_imap; exact Hlen).
  change nodeVector
    with (take (N.to_nat 0) target ++ drop (N.to_nat 0) nodeVector) at 1.
  apply forCount_overwrites with (bound := nf); auto; [|lia].
  intros i x Hi Hx.
  assert (Hlen' : length (take (N.to_nat i) target) = N.to_nat i)
    by (rewrite length_take; lia).
  destruct (lookup_lt_is_Some_2 nodeVector (N.to_nat i)) as [s Hs]; [lia|].
  rewrite (drop_S _ _ _ Hs).
  rewrite insert_app_r_alt by lia. rewrite Hlen', Nat.sub_diag.
  cbn [insert list_insert]. do 2 f_equal.
  unfold target in Hx. rewrite list_lookup_imap, Hs in Hx.
  cbn in Hx. injection Hx as <-. rewrite N2Nat.id. f_equal.
  apply at_lookup. rewrite lookup_app_r by lia.
  rewrite Hlen', Nat.sub_diag. reflexivity.
Qed.

Lemma nodeInPlane_inserts_zero_witness :
  nodeInPlane nan 3 1 [7; 9]%float = [7; 0; 9]%float.
Proof.
  apply (nodeInPlane_inserts_zero nan 3 1 [7; 9]%float); reflexivity.
Defined.

(** A product of a matrix with a vector, summed from the first column on. *)
Definition rowByRow (m : Matrix) (v : list float) : list float :=
  map (fun row => fold_left PrimFloat.add (zip_with PrimFloat.mul row v)
                            0%float) m.

Lemma AddTransformedNode_adds_componentwise_witness :
  AddTransformedNode rowByRow nan 2 0 [[[0; 1]; [1; 0]]]%float
                     [10; 20]%float 0 [5]%float
  = [15; 20]%float.
Proof.
  refine (AddTransformedNode_adds_componentwise rowByRow nan 2 0
            [[[0; 1]; [1; 0]]]%float [10; 20]%float 0 [5]%float _ _);
    reflexivity.
Defined.

End AddTransformedNodeSpec.

(* ===================================================================== *)
(** * FieldName and FieldIndex *)
(* ===================================================================== *)

Module PotentialFunctionHeaderSpec.

Import PotentialFunctionHeader.
Open Scope N_scope.

Lemma FieldName_lookup (fieldNames : list string) i s :
  fieldNames !! N.to_nat i = Some s -> FieldName fieldNames i = s.
Proof.
  intros Hs. unfold FieldName. apply nth_lookup_Some with (d := EmptyString), Hs.
Qed.

Lemma increment_small i : i + 1 < 2 ^ 32 -> increment i = i + 1.
Proof. intros Hi. unfold increment. apply N.mod_small, Hi. Qed.

(** The loop from [i] on returns the first index at or after [i] that holds
    the name. *)
Lemma FieldIndexFrom_found (fieldNames : list string) fieldName j :
  N.of_nat (length fieldNames) < 2 ^ 32 ->
  fieldNames !! N.to_nat j = Some fieldName ->
  forall fuel i,
    i <= j -> (N.to_nat (j - i) < fuel)%nat ->
    (forall j', i <= j' < j -> fieldNames !! N.to_nat j' <> Some fieldName) ->
    FieldIndexFrom fuel fieldNames fieldName i = Some j.
Proof.
  intros Hsize Hj.
  assert (Hjlen : j < N.of_nat (length fieldNames)).
  { apply lookup_lt_Some in Hj. lia. }
  induction fuel as [|fuel IH]; intros i Hij Hfuel Hbefore; [lia|].
  cbn [FieldIndexFrom].
  rewrite (proj2 (N.ltb_lt _ _)) by lia.
  destruct (lookup_lt_is_Some_2 fieldNames (N.to_nat i)) as [s Hs]; [lia|].
  rewrite (FieldName_lookup _ _ _ Hs).
  destruct (String.eqb_spec fieldName s) as [<-|Hne].
  - destruct (N.eq_dec i j) as [->|Hne]; [reflexivity|].
    exfalso. apply (Hbefore i); [lia|exact Hs].
  - assert (i <> j) by (intros ->; congruence).
    rewrite increment_small by lia.
    apply IH; [lia|lia|]. intros j' Hj'. apply Hbefore. lia.
Qed.

Lemma FieldIndexFrom_absent (fieldNames : list string) fieldName :
  N.of_nat (length fieldNames) < 2 ^ 32 ->
  fieldName ∉ fieldNames ->
  forall fuel i,
    i <= N.of_nat (length fieldNames) ->
    (length fieldNames - N.to_nat i < fuel)%nat ->
    FieldIndexFrom fuel fieldNames fieldName i = Some UINT_MAX.
Proof.
  intros Hsize Habsent.
  induction fuel as [|fuel IH]; intros i Hi Hfuel; [lia|].
  cbn [FieldIndexFrom].
  destruct (N.ltb_spec i (N.of_nat (length fieldNames))) as [Hlt|Hge];
    [|reflexivity].
  destruct (lookup_lt_is_Some_2 fieldNames (N.to_nat i)) as [s Hs]; [lia|].
  rewrite (FieldName_lookup _ _ _ Hs).
  destruct (String.eqb_spec fieldName s) as [<-|Hne].
  - exfalso. apply Habsent. eapply list_elem_of_lookup_2, Hs.
  - rewrite increment_small by lia. apply IH; lia.
Qed.

Lemma first_occurrence (l : list string) x :
  x ∈ l ->
  exists j : nat,
    l !! j = Some x /\ forall j' : nat, (j' < j)%nat -> l !! j' <> Some x.
Proof.
  induction l as [|a l IH]; intros Hin; [inversion Hin|].
  destruct (String.eqb_spec a x) as [->|Hne].
  - exists 0%nat. split; [reflexivity|]. intros j' Hj'. lia.
  - apply elem_of_cons in Hin as [->|Hin]; [congruence|].
    destruct (IH Hin) as (j & Hj & Hbefore).
    exists (S j). split; [exact Hj|].
    intros [|j'] Hj'; cbn; [congruence|]. apply Hbefore. lia.
Qed.

(** X18.  For fewer than [2^32] field names, [FieldIndex] of a name among
    them returns the index of its first occurrence: a valid index, different
    from the value returned for unknown names, at which [FieldName] gives the
    name back. *)
Theorem FieldIndex_finds_first_occurrence (fieldNames : list string)
    fieldName fuel :
  N.of_nat (length fieldNames) < 2 ^ 32 ->
  (length fieldNames < fuel)%nat ->
  fieldName ∈ fieldNames ->
  exists fieldIndex,
    FieldIndex fuel fieldNames fieldName = Some fieldIndex
    /\ fieldIndex < N.of_nat (length fieldNames)
    /\ fieldIndex <> UINT_MAX
    /\ FieldName fieldNames fieldIndex = fieldName
    /\ forall earlier, earlier < fieldIndex ->
                       FieldName fieldNames earlier <> fieldName.
Proof.
  intros Hsize Hfuel Hin.
  destruct (first_occurrence _ _ Hin) as (j & Hj & Hbefore).
  pose proof (lookup_lt_Some _ _ _ Hj) as Hjlen.
  exists (N.of_nat j). unfold FieldIndex.
  split.
  - apply FieldIndexFrom_found; rewrite ?Nat2N.id; auto; [lia|lia|].
    intros j' Hj'. apply Hbefore. lia.
  - split; [lia|]. split; [unfold UINT_MAX; lia|].
    split; [apply FieldName_lookup; rewrite Nat2N.id; exact Hj|].
    intros earlier Hearlier Hname.
    apply (Hbefore (N.to_nat earlier)); [lia|].
    destruct (lookup_lt_is_Some_2 fieldNames (N.to_nat earlier)) as [s Hs];
      [lia|].
    rewrite (FieldName_lookup _ _ _ Hs) in Hname. congruence.
Qed.

(** X19.  For fewer than [2^32] field names, [FieldIndex] of a name that is
    not among them returns [UINT_MAX] (the [-1] of the source), which is
    the index of no field. *)
Theorem FieldIndex_of_unknown_name (fieldNames : list string)
    fieldName fuel :
  N.of_nat (length fieldNames) < 2 ^ 32 ->
  (length fieldNames < fuel)%nat ->
  fieldName ∉ fieldNames ->
  FieldIndex fuel fieldNames fieldName = Some UINT_MAX
  /\ N.of_nat (length fieldNames) <= UINT_MAX.
Proof.
  intros Hsize Hfuel Habsent. split.
  - apply FieldIndexFrom_absent; auto; lia.
  - unfold UINT_MAX. lia.
Qed.

(** X20.  For fewer than [2^32] field names without repetition,
    [FieldIndex( FieldName( i ) )] is [i] for every index [i] of a field. *)
Theorem FieldIndex_of_FieldName (fieldNames : list string) fieldIndex fuel :
  N.of_nat (length fieldNames) < 2 ^ 32 ->
  (length fieldNames < fuel)%nat ->
  NoDup fieldNames ->
  fieldIndex < N.of_nat (length fieldNames) ->
  FieldIndex fuel fieldNames (FieldName fieldNames fieldIndex)
  = Some fieldIndex.
Proof.
  intros Hsize Hfuel Hnodup Hindex.
  destruct (lookup_lt_is_Some_2 fieldNames (N.to_nat fieldIndex)) as [s Hs];
    [lia|].
  rewrite (FieldName_lookup _ _ _ Hs).
  apply FieldIndexFrom_found; auto; [lia|lia|].
  intros j' Hj' Hsame.
  pose proof (NoDup_lookup _ _ _ _ Hnodup Hs Hsame). lia.
Qed.

Definition threeFields : list string := ["Hd"; "Hu"; "stau"]%string.

Lemma FieldIndex_finds_first_occurrence_witness :
  exists fieldIndex,
    FieldIndex 4 threeFields "Hu" = Some fieldIndex
    /\ fieldIndex < 3
    /\ fieldIndex <> UINT_MAX
    /\ FieldName threeFields fieldIndex = "Hu"%string
    /\ forall earlier, earlier < fieldIndex ->
                       FieldName threeFields earlier <> "Hu"%string.
Proof.
  apply (FieldIndex_finds_first_occurrence threeFields "Hu" 4).
  - reflexivity.
  - apply le_n.
  - apply list_elem_of_In. right. left. reflexivity.
Defined.

Lemma FieldIndex_of_unknown_name_witness :
  FieldIndex 4 threeFields "stop" = Some UINT_MAX /\ 3 <= UINT_MAX.
Proof.
  apply (FieldIndex_of_unknown_name threeFields "stop" 4).
  - reflexivity.
  - apply le_n.
  - intros Hin. apply list_elem_of_In in Hin.
    destruct Hin as [H|[H|[H|[]]]]; discriminate H.
Defined.

Lemma FieldIndex_of_FieldName_witness :
  FieldIndex 4 threeFields (FieldName threeFields 2) = Some 2.
Proof.
  apply (FieldIndex_of_FieldName threeFields 2 4).
  - reflexivity.
  - apply le_n.
  - apply NoDup_ListNoDup. repeat constructor; cbn; intuition discriminate.
  - reflexivity.
Defined.

End PotentialFunctionHeaderSpec.

(* ===================================================================== *)
(** * FindMinima *)
(* ===================================================================== *)

Module FindMinimaSpec.

Import Double.
Import BounceActionTunneler (PotentialMinimum, FunctionValue, FunctionError).
Import GradientFromStartingPoints FindMinima.
Open Scope float_scope.

(** [<] on doubles is irreflexive and transitive. *)
Lemma SFltb_irrefl x : SFltb x x = false.
Proof.
  unfold SFltb, SFcompare. destruct x as [s|s| |s m e]; try destruct s;
    try reflexivity;
    rewrite Z.compare_refl; change (Pos.compare_cont Eq m m)
      with (Pos.compare m m); rewrite Pos.compare_refl; reflexivity.
Qed.

Lemma SFltb_trans x y z :
  SFltb x y = true -> SFltb y z = true -> SFltb x z = true.
Proof.
  unfold SFltb, SFcompare.
  destruct x as [sx|sx| |sx mx ex], y as [sy|sy| |sy my ey],
           z as [sz|sz| |sz mz ez];
    try destruct sx; try destruct sy; try destruct sz;
    try reflexivity; try discriminate;
    change (Pos.compare_cont Eq) with Pos.compare;
    destruct (Z.compare_spec ex ey), (Z.compare_spec ey ez),
             (Z.compare_spec ex ez);
    try reflexivity; try discriminate; try lia; subst;
    destruct (Pos.compare_spec mx my), (Pos.compare_spec my mz),
             (Pos.compare_spec mx mz);
    cbn; try reflexivity; try discriminate; try lia.
Qed.

Lemma ltb_irrefl (x : float) : (x <? x) = false.
Proof. rewrite ltb_spec. apply SFltb_irrefl. Qed.

Lemma ltb_trans (x y z : float) :
  (x <? y) = true -> (y <? z) = true -> (x <? z) = true.
Proof. rewrite !ltb_spec. apply SFltb_trans. Qed.

(** If nothing in a list is below [old] and [new] is below [old], nothing in
    the list is below [new]. *)
Lemma none_below_new {A} (key : A -> float) (l : list A) (old new : A) :
  (forall x, x ∈ l -> (key x <? key old) = false) ->
  (key new <? key old) = true ->
  forall x, x ∈ l -> (key x <? key new) = false.
Proof.
  intros Hold Hnew x Hx.
  destruct (key x <? key new) eqn:Hlt; [|reflexivity].
  rewrite <- (Hold x Hx). symmetry. eapply ltb_trans; eassumption.
Qed.

(** [best] is in the list and nothing in the list has a smaller key. *)
Definition Lowest {A} (key : A -> float) (l : list A) (best : A) : Prop :=
  best ∈ l /\ forall x, x ∈ l -> (key x <? key best) = false.

Lemma Lowest_snoc {A} (key : A -> float) (l : list A) (best new : A) :
  (l <> [] -> Lowest key l best) ->
  Lowest key (l ++ [new])
         (if match l with [] => true | _ => false end
             || (key new <? key best)
          then new else best).
Proof.
  intros Hold. destruct l as [|a l].
  - cbn. split; [apply list_elem_of_singleton; reflexivity|].
    intros x Hx. apply list_elem_of_singleton in Hx as ->. apply ltb_irrefl.
  - destruct (Hold ltac:(discriminate)) as [Hin Hmin]. cbn [orb].
    destruct (key new <? key best) eqn:Hlt.
    + split; [apply elem_of_app; right; apply list_elem_of_singleton;
              reflexivity|].
      intros x Hx. apply elem_of_app in Hx as [Hx|Hx].
      * exact (none_below_new key _ best new Hmin Hlt x Hx).
      * apply list_elem_of_singleton in Hx as ->. apply ltb_irrefl.
    + split; [apply elem_of_app; left; exact Hin|].
      intros x Hx. apply elem_of_app in Hx as [Hx|Hx]; [auto|].
      apply list_elem_of_singleton in Hx as ->. exact Hlt.
Qed.

Section Selection.

Context {collaborators : Collaborators}.

(** What [FindMinima] keeps of the panic vacua. *)
Definition Selected (m : Minimizer) : Prop :=
  (forall x, x ∈ panicVacua m ->
     x ∈ foundMinima m
     /\ ((FunctionValue x + FunctionError x) <? FunctionValue (dsbVacuum m))
        = true)
  /\ (panicVacua m <> [] ->
      Lowest FunctionValue (panicVacua m) (panicVacuum_global m)
      /\ Lowest (fun x => SquareDistanceTo x (dsbVacuum m))
                (panicVacua m) (panicVacuum_nearest m)
      /\ panicVacuum m = if global_Is_Panic m then panicVacuum_global m
                         else panicVacuum_nearest m).

Lemma record_Selected foundMinimum rolled m :
  Selected m -> Selected (record foundMinimum rolled m).
Proof.
  intros (Hall & Hsel). unfold record.
  destruct (_ && negb rolled) eqn:Hpanic.
  - apply andb_true_iff in Hpanic as [Hbelow _].
    split; cbn [panicVacua foundMinima dsbVacuum panicVacuum
                panicVacuum_global panicVacuum_nearest global_Is_Panic].
    + intros x Hx. apply elem_of_app in Hx as [Hx|Hx].
      * destruct (Hall x Hx) as [Hfound Hlow].
        split; [apply elem_of_app; left; exact Hfound|exact Hlow].
      * apply list_elem_of_singleton in Hx as ->.
        split; [apply elem_of_app; right; apply list_elem_of_singleton;
                reflexivity|exact Hbelow].
    + intros _. split; [|split; [|reflexivity]].
      * apply Lowest_snoc. intros Hne. apply Hsel, Hne.
      * apply (Lowest_snoc (fun x => SquareDistanceTo x (dsbVacuum m))).
        intros Hne. apply Hsel, Hne.
  - split; cbn [panicVacua foundMinima dsbVacuum panicVacuum
                panicVacuum_global panicVacuum_nearest global_Is_Panic].
    + intros x Hx. destruct (Hall x Hx) as [Hfound Hlow].
      split; [apply elem_of_app; left; exact Hfound|exact Hlow].
    + exact Hsel.
Qed.

(** What the loop body leaves alone, and the one minimum it records. *)
Lemma record_frame foundMinimum rolled m :
  let m' := record foundMinimum rolled m in
  dsbVacuum m' = dsbVacuum m
  /\ foundMinima m' = foundMinima m ++ [foundMinimum]
  /\ startingPoints m' = startingPoints m
  /\ done_homotopy m' = done_homotopy m
  /\ global_Is_Panic m' = global_Is_Panic m.
Proof. cbv zeta. unfold record. destruct (_ && _); cbn; auto. Qed.

Lemma overStartingPoints_frame fuel temperature points :
  forall m m',
    overStartingPoints fuel temperature points m = Some m' ->
    dsbVacuum m' = dsbVacuum m
    /\ startingPoints m' = startingPoints m
    /\ done_homotopy m' = done_homotopy m
    /\ global_Is_Panic m' = global_Is_Panic m
    /\ exists found,
         foundMinima m' = foundMinima m ++ found
         /\ length found = length points.
Proof.
  induction points as [|realSolution points IH]; intros m m';
    cbn [overStartingPoints].
  - intros [= <-]. do 4 (split; [reflexivity|]).
    exists []. rewrite app_nil_r. auto.
  - unfold fromStartingPoint.
    destruct (rollFromStartingPoint _ fuel realSolution) as [[first ?]|];
      [|easy].
    destruct (rollAgain temperature (dsbVacuum m) realSolution first)
      as [foundMinimum rolled].
    intros Hrest.
    destruct (record_frame foundMinimum rolled m) as (Hd & Hf & Hs & Hh & Hg).
    apply IH in Hrest as (Hd' & Hs' & Hh' & Hg' & found & Hf' & Hlen).
    do 4 (split; [congruence|]).
    exists (foundMinimum :: found). rewrite Hf', Hf, <- app_assoc.
    split; [reflexivity|]. cbn [length]. congruence.
Qed.

Lemma overStartingPoints_Selected fuel temperature points :
  forall m m',
    Selected m ->
    overStartingPoints fuel temperature points m = Some m' ->
    Selected m'.
Proof.
  induction points as [|realSolution points IH]; intros m m' Hsel;
    cbn [overStartingPoints].
  - intros [= <-]. exact Hsel.
  - unfold fromStartingPoint.
    destruct (rollFromStartingPoint _ fuel realSolution) as [[first ?]|];
      [|easy].
    destruct (rollAgain temperature (dsbVacuum m) realSolution first)
      as [foundMinimum rolled].
    apply IH, record_Selected, Hsel.
Qed.

(** X21.  After a [FindMinima] that started with no panic vacuum recorded:
    every panic vacuum is among the found minima and has value plus error
    below the value of the DSB vacuum; and if there is one,
    [panicVacuum_global] is a panic vacuum than which none has a lower
    value, [panicVacuum_nearest] is one than which none is nearer to the DSB
    vacuum, and [panicVacuum] is the first or the second as [global_Is_Panic]
    says. *)
Theorem FindMinima_selects_the_panic_vacuum fuel temperature m m' :
  panicVacua m = [] ->
  FindMinima fuel temperature m = Some m' ->
  (forall x, x ∈ panicVacua m' ->
     x ∈ foundMinima m'
     /\ ((FunctionValue x + FunctionError x)
         <? FunctionValue (dsbVacuum m')) = true)
  /\ (panicVacua m' <> [] ->
      panicVacuum_global m' ∈ panicVacua m'
      /\ (forall x, x ∈ panicVacua m' ->
            (FunctionValue x <? FunctionValue (panicVacuum_global m'))
            = false)
      /\ panicVacuum_nearest m' ∈ panicVacua m'
      /\ (forall x, x ∈ panicVacua m' ->
            (SquareDistanceTo x (dsbVacuum m')
             <? SquareDistanceTo (panicVacuum_nearest m') (dsbVacuum m'))
            = false)
      /\ panicVacuum m' = if global_Is_Panic m then panicVacuum_global m'
                          else panicVacuum_nearest m').
Proof.
  intros Hempty Hrun. unfold FindMinima in Hrun.
  pose proof (overStartingPoints_frame _ _ _ _ _ Hrun)
    as (_ & _ & _ & Hflag & _).
  apply overStartingPoints_Selected in Hrun as (Hall & Hsel).
  - split; [exact Hall|]. intros Hne.
    destruct (Hsel Hne) as ((Hg & Hgmin) & (Hn & Hnmin) & Hpanic).
    cbn [global_Is_Panic] in Hflag. rewrite <- Hflag. auto.
  - split; cbn [panicVacua]; rewrite Hempty.
    + intros x Hx. inversion Hx.
    + intros Hne. congruence.
Qed.

(** X22.  When [FindMinima] returns, [dsbVacuum] is what the minimizer gave
    from [DsbFieldValues], the starting points are those of the finder if it
    had not run before (and [done_homotopy] is set) or the stored ones if it
    had, one minimum was appended to [foundMinima] for each starting point,
    and the panic vacua recorded before are still there, in front. *)
Theorem FindMinima_records_one_minimum_per_starting_point
    fuel temperature m m' :
  FindMinima fuel temperature m = Some m' ->
  dsbVacuum m' = gradientMinimizer temperature DsbFieldValues
  /\ done_homotopy m' = true
  /\ startingPoints m'
     = (if done_homotopy m then startingPoints m
        else startingPointFinder (startingPoints m))
  /\ panicVacua m `prefix_of` panicVacua m'
  /\ exists found,
       foundMinima m' = foundMinima m ++ found
       /\ length found = length (startingPoints m').
Proof.
  unfold FindMinima. intros Hrun.
  assert (Hprefix : forall points start final,
             overStartingPoints fuel temperature points start = Some final ->
             panicVacua start `prefix_of` panicVacua final).
  { clear. induction points as [|realSolution points IH]; intros start final;
      cbn [overStartingPoints].
    - intros [= <-]. reflexivity.
    - unfold fromStartingPoint.
      destruct (rollFromStartingPoint _ fuel realSolution) as [[first ?]|];
        [|easy].
      destruct (rollAgain temperature (dsbVacuum start) realSolution first)
        as [foundMinimum rolled].
      intros Hrest. apply IH in Hrest. etransitivity; [|exact Hrest].
      unfold record. destruct (_ && _); cbn [panicVacua];
        [apply prefix_app_r|]; reflexivity. }
  pose proof (Hprefix _ _ _ Hrun) as Hpanic. cbn [panicVacua] in Hpanic.
  apply overStartingPoints_frame in Hrun
    as (Hd & Hs & Hh & _ & found & Hf & Hlen).
  cbn [dsbVacuum startingPoints done_homotopy foundMinima] in *.
  do 3 (split; [assumption|]). split; [exact Hpanic|].
  exists found. split; [exact Hf|]. rewrite Hs. exact Hlen.
Qed.

End Selection.

(** ** A concrete search

    One field; the minimizer stays where it starts, and the potential there
    is [-x^2]. *)
Definition stayingMinimizer : Collaborators := {|
  gradientMinimizer := fun _ startingPoint =>
    match startingPoint with
    | [x] => {| BounceActionTunneler.FieldConfiguration := [x];
                FunctionValue := - (x * x); FunctionError := 0 |}
    | _ => {| BounceActionTunneler.FieldConfiguration := startingPoint;
              FunctionValue := 0; FunctionError := 0 |}
    end;
  startingPointFinder := fun _ => [[3]; [5]; [1]];
  DsbFieldValues := [1];
  LengthSquared := fun a =>
    match BounceActionTunneler.FieldConfiguration a with
    | [x] => x * x | _ => 0 end;
  SquareDistanceTo := fun a b =>
    match BounceActionTunneler.FieldConfiguration a,
          BounceActionTunneler.FieldConfiguration b with
    | [x], [y] => (x - y) * (x - y)
    | _, _ => 0
    end;
  SquareDistanceToPoint := fun a point =>
    match BounceActionTunneler.FieldConfiguration a, point with
    | [x], [y] => (x - y) * (x - y)
    | _, _ => 0
    end;
  IsNotPhaseRotationOfDsbVacuum := fun _ _ _ => true;
  extremumSeparationThresholdFraction := 0.1;
  nonDsbRollingToDsbScalingFactor := 4
|}.

Definition atPoint (x : float) : PotentialMinimum :=
  {| BounceActionTunneler.FieldConfiguration := [x];
     FunctionValue := - (x * x); FunctionError := 0 |}.

Definition beforeSearch : Minimizer := {|
  dsbVacuum := atPoint 0;
  foundMinima := [];
  panicVacua := [];
  panicVacuum := atPoint 0;
  panicVacuum_global := atPoint 0;
  panicVacuum_nearest := atPoint 0;
  startingPoints := [];
  done_homotopy := false;
  global_Is_Panic := false
|}.

Definition afterSearch : Minimizer :=
  Eval vm_compute in
    match FindMinima (collaborators := stayingMinimizer) 2 0 beforeSearch with
    | Some m => m
    | None => beforeSearch
    end.

Lemma FindMinima_selects_the_panic_vacuum_witness :
  panicVacuum_global afterSearch = atPoint 5
  /\ panicVacuum_nearest afterSearch = atPoint 3
  /\ panicVacuum afterSearch = panicVacuum_nearest afterSearch
  /\ (forall x, x ∈ panicVacua afterSearch ->
        (FunctionValue x <? FunctionValue (panicVacuum_global afterSearch))
        = false).
Proof.
  pose proof (FindMinima_selects_the_panic_vacuum
                (collaborators := stayingMinimizer) 2 0 beforeSearch
                afterSearch eq_refl eq_refl) as [_ Hsel].
  destruct (Hsel ltac:(discriminate)) as (_ & Hlowest & _ & _ & Hpanic).
  split; [reflexivity|]. split; [reflexivity|]. split; assumption.
Defined.

Lemma FindMinima_records_one_minimum_per_starting_point_witness :
  exists found,
    foundMinima afterSearch = [] ++ found
    /\ length found = length (startingPoints afterSearch).
Proof.
  exact (proj2 (proj2 (proj2 (proj2
           (FindMinima_records_one_minimum_per_starting_point
              (collaborators := stayingMinimizer) 2 0 beforeSearch
              afterSearch eq_refl))))).
Defined.

End FindMinimaSpec.

(* ===================================================================== *)
(** * More on the rotation matrix *)
(* ===================================================================== *)

Module RotationMatrixMore.

Import NodesOnBisectingPlanes NodesOnBisectingPlanesSpec.
Open Scope N_scope.

(** A matrix of [numberOfFields] rows of [numberOfFields] coefficients. *)
Definition Square (nf : N) (m : Matrix) : Prop :=
  length m = N.to_nat nf
  /\ forall r row, m !! r = Some row -> length row = N.to_nat nf.

(** Two square matrices that hold the same coefficients wherever [P] says. *)
Definition Same (nf : N) (P : N -> N -> Prop) (m1 m2 : Matrix) : Prop :=
  Square nf m1 /\ Square nf m2
  /\ forall r c, P r c -> coeff m1 r c = coeff m2 r c.

Lemma coeff_setCoeff_eq nf m r c v :
  Square nf m -> r < nf -> c < nf -> coeff (setCoeff r c v m) r c = v.
Proof.
  intros [Hrows Hcols] Hr Hc. unfold coeff, setCoeff, Matrix in *.
  destruct (lookup_lt_is_Some_2 m (N.to_nat r)) as [row Hrow]; [lia|].
  assert (Hnew : alter (fun row => <[N.to_nat c:=v]> row) (N.to_nat r) m
                 !! N.to_nat r = Some (<[N.to_nat c:=v]> row))
    by (rewrite list_lookup_alter_eq, Hrow; reflexivity).
  rewrite (nth_lookup_Some _ _ [] _ Hnew).
  apply nth_lookup_Some, list_lookup_insert_eq.
  rewrite (Hcols _ _ Hrow). lia.
Qed.

Lemma coeff_setCoeff_ne m r c v r' c' :
  r' <> r \/ c' <> c -> coeff (setCoeff r c v m) r' c' = coeff m r' c'.
Proof.
  intros Hne. unfold coeff, setCoeff, Matrix in *.
  rewrite !(nth_lookup _ _ nan).
  rewrite !(nth_lookup _ _ []).
  destruct (N.eq_dec r' r) as [->|Hr].
  - rewrite list_lookup_alter_eq. destruct (m !! N.to_nat r); [|reflexivity].
    cbn. rewrite list_lookup_insert_ne; [reflexivity|]. lia.
  - rewrite list_lookup_alter_ne by lia. reflexivity.
Qed.

Lemma Square_setCoeff nf m r c v :
  Square nf m -> Square nf (setCoeff r c v m).
Proof.
  intros [Hrows Hcols]. unfold Square, setCoeff, Matrix in *. split.
  - rewrite length_alter. exact Hrows.
  - intros r' row. rewrite list_lookup_alter.
    destruct (decide (N.to_nat r = r')) as [<-|Hne].
    + destruct (m !! N.to_nat r) as [old|] eqn:Hold; [|easy].
      intros [= <-]. rewrite length_insert. eapply Hcols, Hold.
    + apply Hcols.
Qed.

(** Writing one value at one place in both keeps them the same there and
    wherever they were. *)
Lemma Same_write nf (P Q : N -> N -> Prop) m1 m2 r c v1 v2 :
  Same nf P m1 m2 -> r < nf -> c < nf -> v1 = v2 ->
  (forall r' c', Q r' c' -> P r' c' \/ (r' = r /\ c' = c)) ->
  Same nf Q (setCoeff r c v1 m1) (setCoeff r c v2 m2).
Proof.
  intros (H1 & H2 & Hsame) Hr Hc <- HQ.
  split; [apply Square_setCoeff, H1|]. split; [apply Square_setCoeff, H2|].
  intros r' c' Hq.
  destruct (N.eq_dec r' r) as [->|Hr'].
  - destruct (N.eq_dec c' c) as [->|Hc'].
    + rewrite !(coeff_setCoeff_eq nf) by assumption. reflexivity.
    + rewrite !coeff_setCoeff_ne by auto.
      destruct (HQ _ _ Hq) as [Hp|[_ ?]]; [auto|contradiction].
  - rewrite !coeff_setCoeff_ne by auto.
    destruct (HQ _ _ Hq) as [Hp|[? _]]; [auto|contradiction].
Qed.

Lemma Same_weaken nf (P Q : N -> N -> Prop) m1 m2 :
  Same nf P m1 m2 -> (forall r c, Q r c -> P r c) -> Same nf Q m1 m2.
Proof.
  intros (H1 & H2 & Hsame) HQ. split; [exact H1|]. split; [exact H2|].
  intros r c Hq. apply Hsame, HQ, Hq.
Qed.

Lemma Same_everywhere nf (P : N -> N -> Prop) m1 m2 :
  Same nf P m1 m2 -> (forall r c, r < nf -> c < nf -> P r c) -> m1 = m2.
Proof.
  intros ([Hr1 Hc1] & [Hr2 Hc2] & Hsame) Hall. unfold Matrix in *.
  apply (list_eq_same_length _ _ (N.to_nat nf)); auto.
  intros r row1 row2 Hr Hrow1 Hrow2.
  apply (list_eq_same_length _ _ (N.to_nat nf)); eauto.
  intros c x y Hc Hx Hy.
  assert (Hcoeff : coeff m1 (N.of_nat r) (N.of_nat c)
                   = coeff m2 (N.of_nat r) (N.of_nat c))
    by (apply Hsame, Hall; lia).
  unfold coeff in Hcoeff. rewrite !Nat2N.id in Hcoeff.
  rewrite (nth_lookup_Some _ _ _ _ Hrow1), (nth_lookup_Some _ _ _ _ Hrow2),
    (nth_lookup_Some _ _ _ _ Hx), (nth_lookup_Some _ _ _ _ Hy) in Hcoeff.
  exact Hcoeff.
Qed.

(** Two runs of a loop whose passes keep a relation between the states. *)
Lemma forRange_pair {S : Type} (I : N -> S -> S -> Prop)
    (body1 body2 : N -> S -> S) (from to : N) (a b : S) :
  from <= to -> to < 2 ^ 64 ->
  (forall j x y, from <= j < to -> I j x y ->
                 I (j + 1) (body1 j x) (body2 j y)) ->
  I from a b ->
  I to (forRange from to body1 a) (forRange from to body2 b).
Proof.
  intros Hle Hto Hstep. unfold forRange.
  assert (Hgen : forall count i x y,
             from <= i -> i + N.of_nat count = to -> I i x y ->
             I to (forCount count i body1 x) (forCount count i body2 y)).
  { induction count as [|count IH]; intros i x y Hi Hcount Hxy;
      cbn [forCount].
    - replace to with i by lia. exact Hxy.
    - rewrite add_small by lia. apply IH; [lia|lia|].
      apply Hstep; [lia|exact Hxy]. }
  intros Hstart. apply Hgen; [lia|lia|exact Hstart].
Qed.

Section Overwrite.

Variables (nf ref : N).
Hypothesis ref_lt : ref < nf.
Hypothesis nf_small : nf < 2 ^ 64.

(** [columnInsertionIndex] for [columnIndex = i]. *)
Definition insertionIndex (i : N) : N := if ref <=? i then i + 1 else i.

(** The first row and the reference column. *)
Definition FirstRowAndReference (r c : N) : Prop :=
  (r = 0 /\ c < nf) \/ (c = ref /\ r < nf).

(** And the columns filled by the passes for [columnIndex < i]. *)
Definition ColumnsDone (i r c : N) : Prop :=
  FirstRowAndReference r c
  \/ (r < nf /\ exists i', i' < i /\ c = insertionIndex i').

Lemma fillColumn_Same i m1 m2 s :
  i + 1 < nf ->
  Same nf (ColumnsDone i) m1 m2 ->
  snd (fillColumn nf ref i (m1, s)) = snd (fillColumn nf ref i (m2, s))
  /\ Same nf (ColumnsDone (i + 1))
          (fst (fillColumn nf ref i (m1, s)))
          (fst (fillColumn nf ref i (m2, s))).
Proof.
  intros Hi Hsame. unfold fillColumn.
  rewrite (add_small i 1), (add_small i 2) by lia.
  assert (Hread : forall r, r < nf -> coeff m1 r ref = coeff m2 r ref).
  { intros r Hr. apply Hsame. left. right. auto. }
  rewrite (Hread i), (Hread (i + 1)) by lia.
  fold (insertionIndex i).
  set (ins := insertionIndex i).
  assert (Hins : ins < nf /\ ins <> ref).
  { subst ins. unfold insertionIndex. destruct (N.leb_spec ref i); lia. }
  set (sum := (s + coeff m2 i ref * coeff m2 i ref)%float).
  set (inverseNextDiagonal := (1 / coeff m2 (i + 1) ref)%float).
  set (inverseEuclideanLength := (1 / PrimFloat.sqrt _)%float).
  cbn [fst snd]. split; [reflexivity|].
  set (Below row := fun r c => ColumnsDone i r c \/ (c = ins /\ 1 <= r < row)).
  assert (HA : Same nf (Below (i + 1))
                 (forRange 1 (i + 1)
                    (fun rowIndex m =>
                       setCoeff rowIndex ins
                         (coeff m rowIndex ref * inverseEuclideanLength) m)
                    m1)
                 (forRange 1 (i + 1)
                    (fun rowIndex m =>
                       setCoeff rowIndex ins
                         (coeff m rowIndex ref * inverseEuclideanLength) m)
                    m2)).
  { apply (forRange_pair (fun row => Same nf (Below row))); [lia|lia| |].
    - intros j x y Hj Hxy. apply (Same_write nf (Below j)); auto; try lia.
      + f_equal. apply Hxy. left. left. right. split; [reflexivity|lia].
      + unfold Below. intros r' c' [Hdone|[Hc Hr]]; [auto|].
        destruct (N.eq_dec r' j) as [->|Hne]; [auto|].
        left. right. split; [exact Hc|lia].
    - apply (Same_weaken nf (ColumnsDone i)); [exact Hsame|].
      unfold Below. intros r c [Hdone|[_ Hr]]; [exact Hdone|lia]. }
  set (a1 := forRange 1 (i + 1) _ m1) in *.
  set (a2 := forRange 1 (i + 1) _ m2) in *.
  assert (HB : Same nf (Below (i + 2))
                 (setCoeff (i + 1) ins
                    (- sum * inverseNextDiagonal / inverseEuclideanLength) a1)
                 (setCoeff (i + 1) ins
                    (- sum * inverseNextDiagonal / inverseEuclideanLength) a2)).
  { apply (Same_write nf (Below (i + 1))); auto; try lia.
    unfold Below. intros r' c' [Hdone|[Hc Hr]]; [auto|].
    destruct (N.eq_dec r' (i + 1)) as [->|Hne]; [auto|].
    left. right. split; [exact Hc|lia]. }
  set (b1 := setCoeff (i + 1) ins _ a1) in *.
  set (b2 := setCoeff (i + 1) ins _ a2) in *.
  apply (Same_weaken nf (Below nf)).
  - apply (forRange_pair (fun row => Same nf (Below row))); [lia|lia| |exact HB].
    intros j x y Hj Hxy. apply (Same_write nf (Below j)); auto; try lia.
    unfold Below. intros r' c' [Hdone|[Hc Hr]]; [auto|].
    destruct (N.eq_dec r' j) as [->|Hne]; [auto|].
    left. right. split; [exact Hc|lia].
  - unfold Below, ColumnsDone.
    intros r c [Hfirst|(Hr & i' & Hi' & Hc)]; [auto|].
    destruct (N.eq_dec i' i) as [->|Hne].
    + fold ins in Hc. destruct (N.eq_dec r 0) as [->|Hr0].
      * left. left. left. split; [reflexivity|lia].
      * right. split; [exact Hc|lia].
    + left. right. split; [exact Hr|]. exists i'. split; [lia|exact Hc].
Qed.

End Overwrite.

(** X23.  [UpdateRotationMatrix] writes every coefficient of the rotation
    matrix before it reads it: for a reference field below the number of
    fields, two matrices of [numberOfFields] rows and columns come out equal
    whatever they held before the call. *)
Theorem UpdateRotationMatrix_overwrites_everything
        (nf ref : N) (startNode endNode : list float) (m1 m2 : Matrix) :
  ref < nf -> nf < 2 ^ 64 ->
  Square nf m1 -> Square nf m2 ->
  UpdateRotationMatrix nf ref startNode endNode m1
  = UpdateRotationMatrix nf ref startNode endNode m2.
Proof.
  intros ref_lt nf_small H1 H2. unfold UpdateRotationMatrix.
  set (firstDifference := (front endNode - back startNode)%float).
  (* the first row *)
  assert (Hrow : Same nf (fun r c => r = 0 /\ c < nf)
                   (forRange 0 nf
                      (fun columnIndex m =>
                         setCoeff 0 columnIndex firstDifference m) m1)
                   (forRange 0 nf
                      (fun columnIndex m =>
                         setCoeff 0 columnIndex firstDifference m) m2)).
  { apply (forRange_pair (fun col => Same nf (fun r c => r = 0 /\ c < col)));
      [lia|lia| |].
    - intros j x y Hj Hxy.
      apply (Same_write nf (fun r c => r = 0 /\ c < j)); auto; lia.
    - split; [exact H1|]. split; [exact H2|]. intros r c [_ Hc]. lia. }
  set (a1 := forRange 0 nf _ m1) in *. set (a2 := forRange 0 nf _ m2) in *.
  (* the reference column *)
  assert (Hcol : Same nf (FirstRowAndReference nf ref)
                   (forRange 1 nf
                      (fun rowIndex m =>
                         setCoeff rowIndex ref
                           (at_ endNode rowIndex - at_ startNode rowIndex) m)
                      a1)
                   (forRange 1 nf
                      (fun rowIndex m =>
                         setCoeff rowIndex ref
                           (at_ endNode rowIndex - at_ startNode rowIndex) m)
                      a2)).
  { apply (forRange_pair
             (fun row => Same nf (fun r c => (r = 0 /\ c < nf)
                                             \/ (c = ref /\ r < row))));
      [lia|lia| |].
    - intros j x y Hj Hxy.
      apply (Same_write nf (fun r c => (r = 0 /\ c < nf)
                                       \/ (c = ref /\ r < j)));
        auto; lia.
    - apply (Same_weaken nf (fun r c => r = 0 /\ c < nf)); [exact Hrow|].
      intros r c [Hfirst|[-> Hr]]; [exact Hfirst|].
      split; [lia|exact ref_lt]. }
  set (b1 := forRange 1 nf _ a1) in *. set (b2 := forRange 1 nf _ a2) in *.
  (* the other columns *)
  rewrite (sub_small nf 1) by lia.
  assert (Hfill :
            snd (forRange 0 (nf - 1) (fillColumn nf ref) (b1, 0%float))
            = snd (forRange 0 (nf - 1) (fillColumn nf ref) (b2, 0%float))
            /\ Same nf (ColumnsDone nf ref (nf - 1))
                    (fst (forRange 0 (nf - 1) (fillColumn nf ref)
                                   (b1, 0%float)))
                    (fst (forRange 0 (nf - 1) (fillColumn nf ref)
                                   (b2, 0%float)))).
  { apply (forRange_pair
             (fun i x y => snd x = snd y
                           /\ Same nf (ColumnsDone nf ref i) (fst x) (fst y)));
      [lia|lia| |].
    - intros j [x sx] [y sy] Hj [Hs Hxy]. cbn [fst snd] in Hs, Hxy.
      subst sy. apply fillColumn_Same; [exact ref_lt|exact nf_small|lia|exact Hxy].
    - cbn [fst snd]. split; [reflexivity|].
      apply (Same_weaken nf (FirstRowAndReference nf ref)); [exact Hcol|].
      intros r c [Hfirst|(_ & i' & Hi' & _)]; [exact Hfirst|lia]. }
  destruct (forRange 0 (nf - 1) (fillColumn nf ref) (b1, 0%float))
    as [c1 s1].
  destruct (forRange 0 (nf - 1) (fillColumn nf ref) (b2, 0%float))
    as [c2 s2].
  cbn [fst snd] in Hfill. destruct Hfill as [-> Hdone].
  (* the reference column, normalized *)
  assert (Hlast : coeff c1 (nf - 1) ref = coeff c2 (nf - 1) ref).
  { apply Hdone. left. right. split; [reflexivity|lia]. }
  rewrite Hlast.
  set (inverseEuclideanLength := (1 / PrimFloat.sqrt _)%float).
  apply (Same_everywhere nf (ColumnsDone nf ref (nf - 1))).
  - apply (forRange_pair (fun _ => Same nf (ColumnsDone nf ref (nf - 1))));
      [lia|lia| |exact Hdone].
    intros j x y Hj Hxy.
    apply (Same_write nf (ColumnsDone nf ref (nf - 1))); auto; try lia.
    f_equal. apply Hxy. left. right. split; [reflexivity|lia].
  - intros r c Hr Hc. unfold ColumnsDone, FirstRowAndReference.
    destruct (N.eq_dec c ref) as [->|Hne]; [auto|].
    right. split; [exact Hr|].
    destruct (N.lt_ge_cases c ref) as [Hlt|Hge].
    + exists c. split; [lia|]. unfold insertionIndex.
      destruct (N.leb_spec ref c); [lia|reflexivity].
    + exists (c - 1). split; [lia|]. unfold insertionIndex.
      destruct (N.leb_spec ref (c - 1)); lia.
Qed.

Lemma UpdateRotationMatrix_overwrites_everything_witness :
  UpdateRotationMatrix 2 0 [0; 0]%float [3; 4]%float (newMatrix nan 2 2)
  = UpdateRotationMatrix 2 0 [0; 0]%float [3; 4]%float
                         (newMatrix infinity 2 2).
Proof.
  apply (UpdateRotationMatrix_overwrites_everything 2 0 [0; 0]%float
           [3; 4]%float).
  - reflexivity.
  - reflexivity.
  - split; [reflexivity|].
    intros [|[|r]] row; cbn; intros [= <-]; reflexivity.
  - split; [reflexivity|].
    intros [|[|r]] row; cbn; intros [= <-]; reflexivity.
Defined.

End RotationMatrixMore.
